(** * SPDK dispatch examples: completion accounting, buffers and shutdown

    A shallow embedding of the I/O paths of the example programs

      - [bdev_nvme.c]                     (module [BdevNvme])
      - [bdev_nvme_multi.c]               (module [BdevNvmeMulti])
      - [spdk_nvme_multi_io_full.c]       (module [NvmeMultiIoFull])
      - [bdev_reactor_multi_threads.c]    (module [BdevReactor])
      - [bdev_multicore_multi_threads.c]  (module [BdevMulticore])

    The SPDK library itself (allocator, bdev layer, application framework)
    is not part of these programs.  Every call into it is recorded as an
    [event] in a trace, and what the library answers (an allocation that
    fails, a return code, which request a poll completes) is an explicit
    argument of the function that makes the call. *)

From stdpp Require Import gmap list strings.
From Stdlib Require Import ZArith Lia.

Local Open Scope Z_scope.

(** ** Machine integers *)

(** [uint64_t] and [uint32_t] arithmetic wraps around. *)
Definition u64 (z : Z) : Z := z mod 2 ^ 64.
Definition u32 (z : Z) : Z := z mod 2 ^ 32.

(** ** Calls into the SPDK library *)

(** Heap blocks (DMA buffers, task records) and I/O channels are named by
    numbers; a block number is never handed out twice. *)
Abbreviation addr := nat (only parsing).
Abbreviation chan := nat (only parsing).

Inductive event : Type :=
| EEnvInit (rc : Z)                         (* spdk_env_init *)
| EGetByName (found : bool)                 (* spdk_bdev_get_by_name *)
| EBdevOpen (rc : Z)                        (* spdk_bdev_open / spdk_bdev_open_ext *)
| EBdevClose                                (* spdk_bdev_close *)
| EGetIoChannel (res : option chan)         (* spdk_bdev_get_io_channel *)
| EPutIoChannel (c : chan)                  (* spdk_put_io_channel *)
| EDmaAlloc (size : Z) (res : option addr)  (* spdk_malloc / spdk_zmalloc *)
| EDmaFree (b : addr)                       (* spdk_free *)
| ECalloc (res : option addr)               (* calloc of an io_task *)
| EFree (p : addr)                          (* free of an io_task *)
| EBdevRead (c : option chan) (b : option addr) (offset nbytes : Z) (rc : Z)
                                            (* spdk_bdev_read; None is NULL *)
| ENvmeRead (qp : option nat) (b : option addr) (lba lba_count : Z) (rc : Z)
                                            (* spdk_nvme_ns_cmd_read *)
| EBdevFreeIo                               (* spdk_bdev_free_io *)
| EBdevPoll (c : chan)                      (* spdk_bdev_poll *)
| EUsleep (us : Z)
| EThreadCreate (i : nat)                   (* spdk_thread_create *)
| ESendMsg (i : nat)                        (* spdk_thread_send_msg *)
| EAppStop (code : Z)                       (* spdk_app_stop *)
| EAppFini                                  (* spdk_app_fini *)
| ECallback (success : bool)                (* the bdev layer calls io_complete *)
| EStdout (msg : string) (args : list Z)
| EStderr (msg : string).

Global Instance event_eq_dec : EqDecision event.
Proof. solve_decision. Defined.

Definition is_read (e : event) : bool :=
  match e with
  | EBdevRead _ _ _ _ _ | ENvmeRead _ _ _ _ _ => true
  | _ => false
  end.
Definition is_poll (e : event) : bool :=
  match e with EBdevPoll _ => true | _ => false end.
Definition is_dma_alloc (e : event) : bool :=
  match e with EDmaAlloc _ (Some _) => true | _ => false end.
Definition is_stop (e : event) : bool :=
  match e with EAppStop _ => true | _ => false end.
Definition is_release (e : event) : bool :=
  match e with EPutIoChannel _ | EBdevClose => true | _ => false end.
Definition is_callback (e : event) : bool :=
  match e with ECallback _ => true | _ => false end.
Definition is_free (e : event) : bool :=
  match e with EDmaFree _ | EFree _ => true | _ => false end.
Definition is_stderr (e : event) : bool :=
  match e with EStderr _ => true | _ => false end.
Definition is_handle_event (e : event) : bool :=
  match e with
  | EBdevOpen _ | EGetIoChannel _ | EPutIoChannel _ | EBdevClose => true
  | _ => false
  end.

(** A read the layer below refused (nonzero return code). *)
Definition is_refused (e : event) : bool :=
  match e with
  | EBdevRead _ _ _ _ rc | ENvmeRead _ _ _ _ rc => negb (rc =? 0)
  | _ => false
  end.

(** Number of events of a trace that satisfy [p]. *)
Definition count (p : event → bool) (tr : list event) : nat :=
  length (filter (λ e, p e = true) tr).

(** Handles held after a trace: the open descriptor and the channels taken
    from it.  [None] when the trace misuses a handle: a channel obtained
    without an open descriptor, a channel put back that is not held, the
    descriptor closed twice or closed while a channel is still held. *)
Record handles : Type := { desc_open : bool; chans : list chan }.

Definition handle_step (h : handles) (e : event) : option handles :=
  match e with
  | EBdevOpen rc =>
      if decide (rc = 0)
      then if desc_open h then None
           else Some {| desc_open := true; chans := chans h |}
      else Some h
  | EGetIoChannel (Some c) =>
      if desc_open h
      then Some {| desc_open := true; chans := c :: chans h |}
      else None
  | EPutIoChannel c =>
      if decide (c ∈ chans h)
      then Some {| desc_open := desc_open h;
                   chans := filter (λ c', c' ≠ c) (chans h) |}
      else None
  | EBdevClose =>
      if desc_open h
      then match chans h with
           | [] => Some {| desc_open := false; chans := [] |}
           | _ => None
           end
      else None
  | _ => Some h
  end.

Fixpoint handles_after (h : handles) (tr : list event) : option handles :=
  match tr with
  | [] => Some h
  | e :: tr' =>
      match handle_step h e with
      | Some h' => handles_after h' tr'
      | None => None
      end
  end.

Definition no_handles : handles := {| desc_open := false; chans := [] |}.


(** Heap blocks that are live after a trace: allocated and not yet freed.
    [release] removes one occurrence of the block. *)
Fixpoint release (b : addr) (l : list addr) : list addr :=
  match l with
  | [] => []
  | x :: l' => if decide (x = b) then l' else x :: release b l'
  end.

Definition heap_step (l : list addr) (e : event) : list addr :=
  match e with
  | EDmaAlloc _ (Some b) => b :: l
  | ECalloc (Some p) => p :: l
  | EDmaFree b => release b l
  | EFree p => release p l
  | _ => l
  end.

Definition live_blocks (tr : list event) : list addr := foldl heap_step [] tr.

(** How often block [b] is freed in a trace. *)
Definition frees_of (b : addr) (tr : list event) : nat :=
  count (λ e, bool_decide (e = EDmaFree b ∨ e = EFree b)) tr.

(** A trace uses the heap well up to block number [n]: the live blocks are
    distinct and below [n], and a block has been freed once if it is below
    [n] and no longer live, and never otherwise. *)
Definition heap_inv (n : nat) (tr : list event) : Prop :=
  NoDup (live_blocks tr) ∧
  (∀ b, b ∈ live_blocks tr → (b < n)%nat) ∧
  (∀ b, frees_of b tr =
        if decide ((b < n)%nat ∧ b ∉ live_blocks tr) then 1%nat else 0%nat).

(** * bdev_nvme.c *)

Module BdevNvme.

Definition TEST_IO_SIZE : Z := 4096.

(** [struct bdev_context]; [bdev] and [desc] are the one device and its one
    descriptor. *)
Record bdev_context : Type := {
  ch : chan;
  io_submitted : Z;
  io_completed : Z
}.

(** The program state: [ctx] of [main], the reads the bdev layer has
    accepted and not yet completed (by buffer), and the calls made so far. *)
Record world : Type := {
  ctx : bdev_context;
  outstanding : list addr;
  trace : list event
}.

Definition emit (e : event) (w : world) : world :=
  {| ctx := ctx w; outstanding := outstanding w; trace := trace w ++ [e] |}.

Definition set_ctx (c : bdev_context) (w : world) : world :=
  {| ctx := c; outstanding := outstanding w; trace := trace w |}.

Definition set_outstanding (o : list addr) (w : world) : world :=
  {| ctx := ctx w; outstanding := o; trace := trace w |}.

(** [io_complete(bdev_io, success, cb_arg)] with [cb_arg = &ctx]. *)
Definition io_complete (success : bool) (w : world) : world :=
  let c := ctx w in
  let w := set_ctx {| ch := ch c; io_submitted := io_submitted c;
                      io_completed := u64 (io_completed c + 1) |} w in
  let w := if success then w else emit (EStderr "I/O failed") w in
  emit EBdevFreeIo w.

(** [submit_bdev_io(ctx)]; [buf] is what [spdk_malloc] returns and [rc] what
    [spdk_bdev_read] returns.  A read that returns 0 has been accepted by
    the bdev layer and its callback is owed. *)
Definition submit_bdev_io (buf : option addr) (rc : Z) (w : world) : world :=
  let w := emit (EDmaAlloc TEST_IO_SIZE buf) w in
  match buf with
  | None => emit (EStderr "Failed to allocate buffer") w
  | Some b =>
      let w := emit (EBdevRead (Some (ch (ctx w))) (Some b) 0 TEST_IO_SIZE rc) w in
      if decide (rc = 0) then
        let w := set_outstanding (outstanding w ++ [b]) w in
        let c := ctx w in
        set_ctx {| ch := ch c; io_submitted := u64 (io_submitted c + 1);
                   io_completed := io_completed c |} w
      else
        emit (EDmaFree b) (emit (EStderr "Failed to submit bdev read") w)
  end.

(** [spdk_bdev_poll(ctx.ch)]: the bdev layer may complete the oldest
    accepted read ([Some success]) or nothing ([None]); it never completes
    a read it does not hold. *)
Definition spdk_bdev_poll (o : option bool) (w : world) : world :=
  let w := emit (EBdevPoll (ch (ctx w))) w in
  match o, outstanding w with
  | Some success, _ :: rest => io_complete success (set_outstanding rest w)
  | _, _ => w
  end.

(** The wait loop of [main]; [polls] is what each successive poll delivers.
    The flag tells whether the loop was left; it is [false] when the loop
    is still waiting after all of [polls]. *)
Fixpoint wait_loop (polls : list (option bool)) (w : world) : bool * world :=
  if io_completed (ctx w) <? io_submitted (ctx w) then
    match polls with
    | [] => (false, w)
    | o :: polls' => wait_loop polls' (emit (EUsleep 1000) (spdk_bdev_poll o w))
    end
  else (true, w).

(** Answers of the library to the calls of [main]. *)
Record env : Type := {
  env_init_rc : Z;
  bdev_found : bool;
  open_rc : Z;
  io_channel : option chan;
  malloc_res : option addr;
  read_rc : Z;
  polls : list (option bool)
}.

Definition start : world :=
  {| ctx := {| ch := 0%nat; io_submitted := 0; io_completed := 0 |};
     outstanding := []; trace := [] |}.

(** [main]: the exit status ([None] while the wait loop is still running
    when the polls run out) and the final state. *)
Definition main (e : env) : option Z * world :=
  let w := emit (EEnvInit (env_init_rc e)) start in
  if env_init_rc e <? 0 then (Some (-1), emit (EStderr "SPDK env init failed") w)
  else
  let w := emit (EGetByName (bdev_found e)) w in
  if negb (bdev_found e) then (Some (-1), emit (EStderr "NVMe bdev not found") w)
  else
  let w := emit (EBdevOpen (open_rc e)) w in
  if negb (bool_decide (open_rc e = 0))
  then (Some (-1), emit (EStderr "Failed to open bdev") w)
  else
  let w := emit (EGetIoChannel (io_channel e)) w in
  match io_channel e with
  | None => (Some (-1), emit (EStderr "Failed to get I/O channel") w)
  | Some c =>
      let w := set_ctx {| ch := c; io_submitted := 0; io_completed := 0 |} w in
      let w := submit_bdev_io (malloc_res e) (read_rc e) w in
      match wait_loop (polls e) w with
      | (false, w) => (None, w)
      | (true, w) =>
          let w := emit (EStdout "Bdev IO complete: submitted=%lu completed=%lu"
                           [io_submitted (ctx w); io_completed (ctx w)]) w in
          let w := emit (EPutIoChannel (ch (ctx w))) w in
          let w := emit EBdevClose w in
          (Some 0, w)
      end
  end.

(** The start of [main] fails: one of the four checks before the
    submission does. *)
Definition start_fails (e : env) : Prop :=
  env_init_rc e < 0 ∨ bdev_found e = false ∨ open_rc e ≠ 0
  ∨ io_channel e = None.

(** The one read of [main] is accepted by the bdev layer. *)
Definition accepted (e : env) : Prop :=
  is_Some (malloc_res e) ∧ read_rc e = 0.

End BdevNvme.

(** * bdev_nvme_multi.c *)

Module BdevNvmeMulti.

Definition NUM_REACTORS : nat := 2.
Definition IO_PER_REACTOR : nat := 4.
Definition TEST_IO_SIZE : Z := 4096.

(** [struct reactor_ctx]. *)
Record reactor_ctx : Type := {
  ch : chan;
  io_submitted : Z;
  io_completed : Z
}.

(** One reactor: its context, the reads the bdev layer holds for its
    channel, the next unused block number, the calls made so far. *)
Record world : Type := {
  ctx : reactor_ctx;
  outstanding : list addr;
  brk : addr;
  trace : list event
}.

Definition emit (e : event) (w : world) : world :=
  {| ctx := ctx w; outstanding := outstanding w; brk := brk w;
     trace := trace w ++ [e] |}.

Definition set_ctx (c : reactor_ctx) (w : world) : world :=
  {| ctx := c; outstanding := outstanding w; brk := brk w; trace := trace w |}.

Definition set_outstanding (o : list addr) (w : world) : world :=
  {| ctx := ctx w; outstanding := o; brk := brk w; trace := trace w |}.

Definition set_brk (n : addr) (w : world) : world :=
  {| ctx := ctx w; outstanding := outstanding w; brk := n; trace := trace w |}.

(** The bdev layer as seen by [submit_io]: whether the [i]-th allocation
    succeeds, and the return code of a read given the reads it already
    holds. *)
Record bdev_layer : Type := {
  zmalloc_ok : nat → bool;
  read_rc : list addr → Z
}.

(** [io_complete(bdev_io, success, cb_arg)] with [cb_arg = ctx]. *)
Definition io_complete (success : bool) (w : world) : world :=
  let c := ctx w in
  let w := set_ctx {| ch := ch c; io_submitted := io_submitted c;
                      io_completed := u64 (io_completed c + 1) |} w in
  let w := if success then w else emit (EStderr "I/O failed") w in
  emit EBdevFreeIo w.

(** Body of the loop of [submit_io] for index [i]. *)
Definition submit_io_body (lib : bdev_layer) (w : world) (i : nat) : world :=
  if zmalloc_ok lib i then
    let b := brk w in
    let w := emit (EDmaAlloc TEST_IO_SIZE (Some b)) (set_brk (S b) w) in
    let rc := read_rc lib (outstanding w) in
    let w := emit (EBdevRead (Some (ch (ctx w))) (Some b) (Z.of_nat i * TEST_IO_SIZE)
                     TEST_IO_SIZE rc) w in
    if decide (rc = 0) then
      let w := set_outstanding (outstanding w ++ [b]) w in
      let c := ctx w in
      set_ctx {| ch := ch c; io_submitted := u64 (io_submitted c + 1);
                 io_completed := io_completed c |} w
    else
      emit (EDmaFree b) (emit (EStderr "Failed to submit bdev read") w)
  else
    emit (EStderr "Failed to allocate buffer")
      (emit (EDmaAlloc TEST_IO_SIZE None) w).

(** [submit_io(ctx)]: [for (i = 0; i < IO_PER_REACTOR; i++)]. *)
Definition submit_io (lib : bdev_layer) (w : world) : world :=
  foldl (submit_io_body lib) w (seq 0 IO_PER_REACTOR).

(** A reactor right after [spdk_bdev_get_io_channel] returned channel [c]. *)
Definition start (c : chan) : world :=
  {| ctx := {| ch := c; io_submitted := 0; io_completed := 0 |};
     outstanding := []; brk := 0%nat; trace := [EGetIoChannel (Some c)] |}.

Definition ENOMEM : Z := 12.

(** Modelled from the spec: a device test double whose queue has depth
    [depth].  It takes a read while it holds fewer than [depth] of them
    and refuses it with [-ENOMEM] otherwise; allocation never fails. *)
Definition queue_double (depth : nat) : bdev_layer :=
  {| zmalloc_ok := λ _, true;
     read_rc := λ held, if decide (length held < depth)%nat then 0 else - ENOMEM |}.


(** [spdk_bdev_poll(ctx->ch)]: the bdev layer completes the oldest reads it
    holds for the channel, one per status in [statuses], and never one it
    does not hold. *)
Definition spdk_bdev_poll (statuses : list bool) (w : world) : world :=
  foldl (λ w s,
           match outstanding w with
           | [] => w
           | _ :: rest => io_complete s (set_outstanding rest w)
           end)
        (emit (EBdevPoll (ch (ctx w))) w) statuses.




End BdevNvmeMulti.

(** * spdk_nvme_multi_io_full.c *)

Module NvmeMultiIoFull.

Definition NUM_REACTORS : nat := 2.
Definition QP_PER_REACTOR : nat := 1.
Definition TEST_IO_SIZE : Z := 4096.

(** [struct reactor_context]; the controller is the one attached device. *)
Record reactor_context : Type := {
  qpair : list nat;
  io_submitted : Z;
  io_completed : Z
}.

(** One reactor: its context, the commands its queue pairs hold (queue
    pair and buffer), the next unused block number, the calls made so far. *)
Record world : Type := {
  ctx : reactor_context;
  outstanding : list (nat * addr);
  brk : addr;
  trace : list event
}.

Definition emit (e : event) (w : world) : world :=
  {| ctx := ctx w; outstanding := outstanding w; brk := brk w;
     trace := trace w ++ [e] |}.

Definition set_ctx (c : reactor_context) (w : world) : world :=
  {| ctx := c; outstanding := outstanding w; brk := brk w; trace := trace w |}.

Definition set_outstanding (o : list (nat * addr)) (w : world) : world :=
  {| ctx := ctx w; outstanding := o; brk := brk w; trace := trace w |}.

Definition set_brk (n : addr) (w : world) : world :=
  {| ctx := ctx w; outstanding := outstanding w; brk := n; trace := trace w |}.

(** The NVMe driver as seen by [submit_io]: whether the allocation
    succeeds, and the return code of a read command given the commands
    already held. *)
Record nvme_layer : Type := {
  zmalloc_ok : bool;
  cmd_rc : list (nat * addr) → Z
}.

(** [io_complete(arg, cpl)] with [arg = ctx]. *)
Definition io_complete (w : world) : world :=
  let c := ctx w in
  set_ctx {| qpair := qpair c; io_submitted := io_submitted c;
             io_completed := u64 (io_completed c + 1) |} w.

(** [submit_io(ctx)]: one buffer for all queue pairs, then
    [for (q = 0; q < QP_PER_REACTOR; q++)] a read of one block at LBA 0. *)
Definition submit_io (lib : nvme_layer) (w : world) : world :=
  if zmalloc_ok lib then
    let b := brk w in
    let w := emit (EDmaAlloc TEST_IO_SIZE (Some b)) (set_brk (S b) w) in
    foldl (λ w q,
             let qp := qpair (ctx w) !! q in
             let lba := 0 in
             let rc := cmd_rc lib (outstanding w) in
             let w := emit (ENvmeRead qp (Some b) lba 1 rc) w in
             if decide (rc = 0) then
               let w := set_outstanding
                          (outstanding w ++ [(default 0%nat qp, b)]) w in
               let c := ctx w in
               set_ctx {| qpair := qpair c;
                          io_submitted := u64 (io_submitted c + 1);
                          io_completed := io_completed c |} w
             else emit (EStderr "Failed to submit IO") w)
          w (seq 0 QP_PER_REACTOR)
  else
    emit (EStderr "Failed to allocate buffer")
      (emit (EDmaAlloc TEST_IO_SIZE None) w).

(** Reactor [i] right after its queue pairs have been allocated.  [main]
    zeroes the counters of ctx[1] .. ctx[NUM_REACTORS - 1] only (its loop
    starts at [i = 1]); those of ctx[0] are never initialised and hold what
    the stack held, [sub0] and [comp0]. *)
Definition start (i : nat) (sub0 comp0 : Z) (qps : list nat) : world :=
  {| ctx := {| qpair := qps;
               io_submitted := if decide (i = 0%nat) then sub0 else 0;
               io_completed := if decide (i = 0%nat) then comp0 else 0 |};
     outstanding := []; brk := 0%nat; trace := [] |}.

(** Modelled from the spec: a test double whose queue pairs hold at most
    [depth] commands in all and refuse a further one with [-ENOMEM]. *)
Definition queue_double (depth : nat) : nvme_layer :=
  {| zmalloc_ok := true;
     cmd_rc := λ held, if decide (length held < depth)%nat then 0 else - 12 |}.

End NvmeMultiIoFull.

(** * bdev_reactor_multi_threads.c *)

Module BdevReactor.

Definition THREADS_PER_REACTOR : nat := 3.
Definition IO_PER_THREAD : nat := 8.

(** [struct thread_ctx]; [desc] and [bdev] are the one descriptor and its
    device, [ch] is [None] until [thread_work] has obtained the channel. *)
Record thread_ctx : Type := {
  ch : option chan;
  submitted : Z;
  completed : Z
}.

(** [struct io_task]; [tctx] points into [g_ctx] and is kept as the index. *)
Record io_task : Type := {
  tctx : nat;
  buf : addr
}.

(** The globals, the allocator's next unused block number, what the SPDK
    framework holds on behalf of the program (the reads the bdev layer has
    accepted, each with its [cb_arg] and the task it points to, and the
    threads that have a [thread_work] message waiting), and the calls made
    so far. *)
Record world : Type := {
  g_ctx : list thread_ctx;
  g_total_expected : Z;
  g_total_completed : Z;
  brk : addr;
  inflight : list (addr * io_task);
  inbox : list nat;
  trace : list event
}.

Definition emit (e : event) (w : world) : world :=
  {| g_ctx := g_ctx w; g_total_expected := g_total_expected w;
     g_total_completed := g_total_completed w; brk := brk w;
     inflight := inflight w; inbox := inbox w; trace := trace w ++ [e] |}.

Definition set_g_ctx (l : list thread_ctx) (w : world) : world :=
  {| g_ctx := l; g_total_expected := g_total_expected w;
     g_total_completed := g_total_completed w; brk := brk w;
     inflight := inflight w; inbox := inbox w; trace := trace w |}.

Definition set_totals (expected completed : Z) (w : world) : world :=
  {| g_ctx := g_ctx w; g_total_expected := expected;
     g_total_completed := completed; brk := brk w;
     inflight := inflight w; inbox := inbox w; trace := trace w |}.

Definition set_brk (n : addr) (w : world) : world :=
  {| g_ctx := g_ctx w; g_total_expected := g_total_expected w;
     g_total_completed := g_total_completed w; brk := n;
     inflight := inflight w; inbox := inbox w; trace := trace w |}.

Definition set_inflight (l : list (addr * io_task)) (w : world) : world :=
  {| g_ctx := g_ctx w; g_total_expected := g_total_expected w;
     g_total_completed := g_total_completed w; brk := brk w;
     inflight := l; inbox := inbox w; trace := trace w |}.

Definition set_inbox (l : list nat) (w : world) : world :=
  {| g_ctx := g_ctx w; g_total_expected := g_total_expected w;
     g_total_completed := g_total_completed w; brk := brk w;
     inflight := inflight w; inbox := l; trace := trace w |}.

(** Field updates of [g_ctx[t]]. *)
Definition inc_submitted (c : thread_ctx) : thread_ctx :=
  {| ch := ch c; submitted := u64 (submitted c + 1); completed := completed c |}.
Definition inc_completed (c : thread_ctx) : thread_ctx :=
  {| ch := ch c; submitted := submitted c; completed := u64 (completed c + 1) |}.
Definition with_ch (o : option chan) (c : thread_ctx) : thread_ctx :=
  {| ch := o; submitted := submitted c; completed := completed c |}.
Definition reset (c : thread_ctx) : thread_ctx :=
  {| ch := ch c; submitted := 0; completed := 0 |}.

Definition ctx_of (w : world) (t : nat) : thread_ctx :=
  default {| ch := None; submitted := 0; completed := 0 |} (g_ctx w !! t).

(** [io_complete(bdev_io, success, cb_arg)]: [p] is [cb_arg], [task] the
    record it points to. *)
Definition io_complete (p : addr) (task : io_task) (success : bool)
    (w : world) : world :=
  let t := tctx task in
  let w := set_g_ctx (alter inc_completed t (g_ctx w)) w in
  (* __atomic_fetch_add(&g_total_completed, 1, __ATOMIC_RELAXED) *)
  let w := set_totals (g_total_expected w) (u64 (g_total_completed w + 1)) w in
  let w := emit (EStdout "I/O completed"
                   [if success then 1 else 0; completed (ctx_of w t);
                    Z.of_nat IO_PER_THREAD; g_total_completed w;
                    g_total_expected w]) w in
  let w := emit EBdevFreeIo w in
  let w := emit (EDmaFree (buf task)) w in
  let w := emit (EFree p) w in
  if decide (g_total_completed w = g_total_expected w)
  then emit (EAppStop 0) w
  else w.

(** Answers of the library to one call of [submit_one_io]. *)
Record answers : Type := {
  calloc_ok : bool;
  zmalloc_ok : bool;
  read_rc : Z
}.

(** [submit_one_io(t, lba, num_blocks)]; [bsz] is the block size of the
    device.  The buffer size is computed in [size_t], the byte offset in
    [uint64_t], the byte count in [uint32_t]. *)
Definition submit_one_io (bsz : Z) (a : answers) (t : nat) (lba num_blocks : Z)
    (w : world) : world :=
  if calloc_ok a then
    let p := brk w in
    let w := emit (ECalloc (Some p)) (set_brk (S p) w) in
    let size := u64 (bsz * num_blocks) in
    if zmalloc_ok a then
      let b := brk w in
      let w := emit (EDmaAlloc size (Some b)) (set_brk (S b) w) in
      let task := {| tctx := t; buf := b |} in
      let rc := read_rc a in
      let w := emit (EBdevRead (ch (ctx_of w t)) (Some b)
                       (u64 (lba * bsz)) (u32 (bsz * num_blocks)) rc) w in
      if decide (rc = 0) then
        let w := set_inflight (inflight w ++ [(p, task)]) w in
        let w := set_g_ctx (alter inc_submitted t (g_ctx w)) w in
        emit (EStdout "submit READ"
                [lba; num_blocks; submitted (ctx_of w t);
                 Z.of_nat IO_PER_THREAD]) w
      else
        let w := emit (EStderr "spdk_bdev_read submit failed") w in
        let w := emit (EDmaFree b) w in
        emit (EFree p) w
    else
      let w := emit (EDmaAlloc size None) w in
      let w := emit (EStderr "spdk_zmalloc failed") w in
      emit (EFree p) w
  else
    emit (EStderr "calloc io_task failed") (emit (ECalloc None) w).

(** The first [n] rounds of the loop of [thread_work]; [nb] is the number
    of blocks of the device and [ans i] the library's answers in round [i]. *)
Definition submit_loop (n : nat) (bsz nb : Z) (ans : nat → answers) (t : nat)
    (w : world) : world :=
  foldl (λ w i,
           let lba := u64 (Z.of_nat i `mod` (if decide (nb = 0) then 1 else nb)) in
           submit_one_io bsz (ans i) t lba 1 w)
        w (seq 0 n).

(** [thread_work(arg)] stopped after [n] rounds of its loop; [chres] is
    what [spdk_bdev_get_io_channel] returns. *)
Definition thread_work_upto (n : nat) (chres : option chan) (bsz nb : Z)
    (ans : nat → answers) (t : nat) (w : world) : world :=
  let w := emit (EGetIoChannel chres) w in
  let w := set_g_ctx (alter (with_ch chres) t (g_ctx w)) w in
  match chres with
  | None => emit (EStderr "get_io_channel failed") w
  | Some _ =>
      let w := emit (EStdout "start on reactor core" [nb; bsz]) w in
      submit_loop n bsz nb ans t w
  end.

Definition thread_work := thread_work_upto IO_PER_THREAD.

(** The program before [app_start]: zero-initialised statics. *)
Definition initial : world :=
  {| g_ctx := replicate THREADS_PER_REACTOR
                {| ch := None; submitted := 0; completed := 0 |};
     g_total_expected := 0; g_total_completed := 0; brk := 0%nat;
     inflight := []; inbox := []; trace := [] |}.

(** [app_start(arg)]; [open_rc] is what [spdk_bdev_open_ext] returns. *)
Definition app_start (open_rc : Z) (w : world) : world :=
  let w := emit (EBdevOpen open_rc) w in
  if decide (open_rc = 0) then
    let w := set_totals (Z.of_nat THREADS_PER_REACTOR * Z.of_nat IO_PER_THREAD)
               0 w in
    foldl (λ w i,
             let w := emit (EThreadCreate i) w in
             let w := set_g_ctx (alter reset i (g_ctx w)) w in
             emit (ESendMsg i) (set_inbox (inbox w ++ [i]) w))
          w (seq 0 THREADS_PER_REACTOR)
  else
    emit (EAppStop (-1)) (emit (EStderr "open bdev failed") w).

(** What the framework does between two handlers: the single reactor runs
    the waiting [thread_work] message of a thread, or the bdev layer
    completes one of the reads it holds, the [k]-th, and calls back. *)
Inductive label : Type :=
| Deliver (t : nat) (chres : option chan) (bsz nb : Z) (ans : nat → answers)
| Complete (k : nat) (success : bool).

Definition exec (w : world) (l : label) : option world :=
  match l with
  | Deliver t chres bsz nb ans =>
      if decide (t ∈ inbox w)
      then Some (thread_work chres bsz nb ans t
                   (set_inbox (filter (λ i, i ≠ t) (inbox w)) w))
      else None
  | Complete k success =>
      match inflight w !! k with
      | Some (p, task) =>
          Some (io_complete p task success
                  (emit (ECallback success)
                     (set_inflight (delete k (inflight w)) w)))
      | None => None
      end
  end.

Fixpoint run (w : world) (ls : list label) : option world :=
  match ls with
  | [] => Some w
  | l :: ls' =>
      match exec w l with
      | Some w' => run w' ls'
      | None => None
      end
  end.

(** States between two handlers of an execution. *)
Definition reachable (w : world) : Prop :=
  ∃ open_rc ls, run (app_start open_rc initial) ls = Some w.

(** Observation points: between two handlers, or inside [thread_work]
    after any number of rounds of its loop. *)
Definition observable (w : world) : Prop :=
  reachable w ∨
  ∃ w0 t chres bsz nb ans n,
    reachable w0 ∧ t ∈ inbox w0 ∧ (n ≤ IO_PER_THREAD)%nat ∧
    w = thread_work_upto n chres bsz nb ans t
          (set_inbox (filter (λ i, i ≠ t) (inbox w0)) w0).

Definition total_submitted (w : world) : Z :=
  foldr (λ c acc, submitted c + acc) 0 (g_ctx w).

Definition total_completed (w : world) : Z :=
  foldr (λ c acc, completed c + acc) 0 (g_ctx w).

(** Callbacks run one after the other, each with its [cb_arg], its task
    and its status. *)
Definition completions (args : list (addr * io_task * bool)) (w : world)
    : world :=
  foldl (λ w a, io_complete a.1.1 a.1.2 a.2 w) w args.

(** Sum of a counter over the thread contexts. *)
Definition sumf (f : thread_ctx → Z) (l : list thread_ctx) : Z :=
  foldr (λ c acc, f c + acc) 0 l.

(** Reads of thread [i] among the requests [l] held by the bdev layer. *)
Definition owed (l : list (addr * io_task)) (i : nat) : nat :=
  length (filter (λ pt, tctx pt.2 = i) l).

(** The accounting invariant on the thread contexts [g], the global
    completion counter [n], the requests in flight [l] and the waiting
    messages [inb]; [b i] bounds the submissions of thread [i]. *)
Definition inv_on (b : nat → Z) (g : list thread_ctx) (n : Z)
    (l : list (addr * io_task)) (inb : list nat) : Prop :=
  length g = THREADS_PER_REACTOR ∧
  n = sumf completed g ∧
  Forall (λ pt, (tctx pt.2 < THREADS_PER_REACTOR)%nat) l ∧
  Forall (λ i, (i < THREADS_PER_REACTOR)%nat) inb ∧
  ∀ i c, g !! i = Some c →
    0 ≤ completed c ∧
    completed c + Z.of_nat (owed l i) = submitted c ∧
    submitted c ≤ b i ∧
    (i ∈ inb → submitted c = 0).

Definition inv (b : nat → Z) (w : world) : Prop :=
  inv_on b (g_ctx w) (g_total_completed w) (inflight w) (inbox w).

(** The bound [IO_PER_THREAD] for every thread, and [n] for thread [t]
    while it is in its loop. *)
Definition full : nat → Z := λ _, Z.of_nat IO_PER_THREAD.
Definition cap (t : nat) (n : Z) : nat → Z :=
  λ i, if decide (i = t) then n else Z.of_nat IO_PER_THREAD.

(** The answers of a bdev layer that takes everything. *)
Definition accept_all : answers :=
  {| calloc_ok := true; zmalloc_ok := true; read_rc := 0 |}.

(** A whole serial run on a device that takes every read: the three
    messages, then the 24 completions, half of them with an error status. *)
Definition whole_run : list label :=
  map (λ t, Deliver t (Some t) 4096 1000 (λ _, accept_all)) (seq 0 3)
  ++ replicate 12 (Complete 0 true) ++ replicate 12 (Complete 0 false).

(** The claim of the specification for a call that violates a
    precondition: nothing reaches the hardware and no counter moves. *)
Definition spec_rejected (t : nat) (w w' : world) : Prop :=
  count is_read (trace w') = count is_read (trace w) ∧
  submitted (ctx_of w' t) = submitted (ctx_of w t) ∧
  inflight w' = inflight w.

(** The heap blocks of the requests [l]: task record and buffer of each. *)
Definition blocks_of (l : list (addr * io_task)) : list addr :=
  l ≫= (λ pt, [pt.1; buf pt.2]).

(** A read that lies inside a device of [nb] blocks of [bsz] bytes and
    starts on a block boundary. *)
Definition read_in_range (bsz nb : Z) (e : event) : Prop :=
  match e with
  | EBdevRead _ _ offset nbytes _ =>
      ∃ lba, 0 ≤ lba < nb ∧ offset = lba * bsz ∧ nbytes = bsz
  | _ => True
  end.

(** The heap as the requests in flight account for it. *)
Definition hinv (w : world) : Prop :=
  heap_inv (brk w) (trace w) ∧
  live_blocks (trace w) ≡ₚ blocks_of (inflight w).

(** What holds between the handlers of a run that opened the device: the
    accounting, the heap, and a stop request exactly when the completed
    counter stands at the expected total. *)
Definition sys_inv (w : world) : Prop :=
  inv full w ∧ g_total_expected w = 24 ∧ hinv w ∧
  count is_stop (trace w) =
    if decide (g_total_completed w = 24) then 1%nat else 0%nat.

End BdevReactor.

(** * bdev_multicore_multi_threads.c *)

Module BdevMulticore.

Definition THREADS_PER_REACTOR : nat := 2.
Definition IO_PER_THREAD : nat := 4.

(** [struct thread_ctx]: only [ch] changes after [app_start]. *)
Record thread_ctx : Type := { ch : option chan }.

(** The globals, the allocator's next unused block number, the reads the
    bdev layer has accepted (channel and buffer as passed), the threads
    with a waiting [thread_work] message, and the calls made so far. *)
Record world : Type := {
  g_ctx : list thread_ctx;
  g_total_expected : Z;
  g_total_completed : Z;
  brk : addr;
  inflight : list (option chan * option addr);
  inbox : list nat;
  trace : list event
}.

Definition emit (e : event) (w : world) : world :=
  {| g_ctx := g_ctx w; g_total_expected := g_total_expected w;
     g_total_completed := g_total_completed w; brk := brk w;
     inflight := inflight w; inbox := inbox w; trace := trace w ++ [e] |}.

Definition set_g_ctx (l : list thread_ctx) (w : world) : world :=
  {| g_ctx := l; g_total_expected := g_total_expected w;
     g_total_completed := g_total_completed w; brk := brk w;
     inflight := inflight w; inbox := inbox w; trace := trace w |}.

Definition set_expected (n : Z) (w : world) : world :=
  {| g_ctx := g_ctx w; g_total_expected := n;
     g_total_completed := g_total_completed w; brk := brk w;
     inflight := inflight w; inbox := inbox w; trace := trace w |}.

Definition set_completed (n : Z) (w : world) : world :=
  {| g_ctx := g_ctx w; g_total_expected := g_total_expected w;
     g_total_completed := n; brk := brk w;
     inflight := inflight w; inbox := inbox w; trace := trace w |}.

Definition set_brk (n : addr) (w : world) : world :=
  {| g_ctx := g_ctx w; g_total_expected := g_total_expected w;
     g_total_completed := g_total_completed w; brk := n;
     inflight := inflight w; inbox := inbox w; trace := trace w |}.

Definition set_inflight (l : list (option chan * option addr)) (w : world)
    : world :=
  {| g_ctx := g_ctx w; g_total_expected := g_total_expected w;
     g_total_completed := g_total_completed w; brk := brk w;
     inflight := l; inbox := inbox w; trace := trace w |}.

Definition set_inbox (l : list nat) (w : world) : world :=
  {| g_ctx := g_ctx w; g_total_expected := g_total_expected w;
     g_total_completed := g_total_completed w; brk := brk w;
     inflight := inflight w; inbox := l; trace := trace w |}.

(** The test at the end of [io_complete]. *)
Definition stop_if_done (w : world) : world :=
  if decide (g_total_completed w = g_total_expected w)
  then emit (EAppStop 0) w
  else w.

(** [io_complete(bdev_io, success, cb_arg)]: both [bdev_io] and [success]
    are cast to void.  [g_total_completed++] on a plain [uint64_t] is a
    load, an addition and a store. *)
Definition io_complete (success : bool) (w : world) : world :=
  let tmp := g_total_completed w in
  let w := set_completed (u64 (tmp + 1)) w in
  stop_if_done w.

(** Callbacks run one after the other, each with its status. *)
Definition completions (flags : list bool) (w : world) : world :=
  foldl (λ w s, io_complete s w) w flags.

(** Answers of the library to one round of the loop of [submit_io]. *)
Record answers : Type := {
  zmalloc_ok : bool;
  read_rc : Z
}.

(** [submit_io(t)]; [bsz] is the block size of the device.  Neither the
    result of [spdk_zmalloc] nor the return code of [spdk_bdev_read] is
    looked at; a read that returned 0 is held by the bdev layer. *)
Definition submit_io (bsz : Z) (ans : nat → answers) (t : nat) (w : world)
    : world :=
  foldl (λ w i,
           let a := ans i in
           let '(buf, w) :=
             if zmalloc_ok a
             then (Some (brk w),
                   emit (EDmaAlloc bsz (Some (brk w))) (set_brk (S (brk w)) w))
             else (None, emit (EDmaAlloc bsz None) w) in
           let c := g_ctx w !! t ≫= ch in
           let w := emit (EBdevRead c buf (Z.of_nat i) 1 (read_rc a)) w in
           if decide (read_rc a = 0)
           then set_inflight (inflight w ++ [(c, buf)]) w
           else w)
        w (seq 0 IO_PER_THREAD).

(** [thread_work(arg)]; [chres] is what [spdk_bdev_get_io_channel] returns. *)
Definition thread_work (chres : option chan) (bsz : Z) (ans : nat → answers)
    (t : nat) (w : world) : world :=
  let w := emit (EGetIoChannel chres) w in
  let w := set_g_ctx (<[t := {| ch := chres |}]> (g_ctx w)) w in
  submit_io bsz ans t w.

(** The program before [app_start]: zero-initialised statics. *)
Definition initial : world :=
  {| g_ctx := replicate (THREADS_PER_REACTOR * 2) {| ch := None |};
     g_total_expected := 0; g_total_completed := 0; brk := 0%nat;
     inflight := []; inbox := []; trace := [] |}.

(** [app_start(arg)]; [open_rc] is what [spdk_bdev_open_ext] returns.  The
    two nested loops visit [idx = core * THREADS_PER_REACTOR + t]. *)
Definition app_start (open_rc : Z) (w : world) : world :=
  let w := emit (EBdevOpen open_rc) w in
  if decide (open_rc = 0) then
    let w := set_expected (Z.of_nat THREADS_PER_REACTOR * 2
                           * Z.of_nat IO_PER_THREAD) w in
    let w := set_completed 0 w in
    foldl (λ w core,
             foldl (λ w t,
                      let idx := (core * THREADS_PER_REACTOR + t)%nat in
                      let w := emit (EThreadCreate idx) w in
                      emit (ESendMsg idx) (set_inbox (inbox w ++ [idx]) w))
                   w (seq 0 THREADS_PER_REACTOR))
          w (seq 0 2)
  else
    emit (EAppStop (-1)) w.

(** What the framework does between two handlers, when handlers do not
    overlap: a reactor runs the waiting [thread_work] message of a thread,
    or the bdev layer completes the [k]-th read it holds and calls back. *)
Inductive label : Type :=
| Deliver (t : nat) (chres : option chan) (bsz : Z) (ans : nat → answers)
| Complete (k : nat) (success : bool).

Definition exec (w : world) (l : label) : option world :=
  match l with
  | Deliver t chres bsz ans =>
      if decide (t ∈ inbox w)
      then Some (thread_work chres bsz ans t
                   (set_inbox (filter (λ i, i ≠ t) (inbox w)) w))
      else None
  | Complete k success =>
      match inflight w !! k with
      | Some _ =>
          Some (io_complete success
                  (emit (ECallback success)
                     (set_inflight (delete k (inflight w)) w)))
      | None => None
      end
  end.

Fixpoint run (w : world) (ls : list label) : option world :=
  match ls with
  | [] => Some w
  | l :: ls' =>
      match exec w l with
      | Some w' => run w' ls'
      | None => None
      end
  end.

(** ** Scenario A *)

(** Modelled from the spec: the zero-error device test double of Scenario A
    (blocks of 4096 bytes).  It takes every read and completes every read
    it holds with success. *)
Definition BLOCK_SIZE : Z := 4096.

Definition zero_error : nat → answers :=
  λ _, {| zmalloc_ok := true; read_rc := 0 |}.



(** Modelled from the spec: polling the queue of channel [c] completes the
    reads held for that channel, oldest first. *)
Fixpoint drain (fuel : nat) (c : chan) (w : world) : world :=
  match fuel with
  | O => w
  | S fuel' =>
      match list_find (λ r, r.1 = Some c) (inflight w) with
      | Some (k, _) =>
          match exec w (Complete k true) with
          | Some w' => drain fuel' c w'
          | None => w
          end
      | None => w
      end
  end.

(** Modelled from the spec: one scheduling turn of work unit [t], which
    owns channel [t]: its inbox first, then its queue. *)
Definition poll_thread (t : nat) (w : world) : world :=
  let w := match exec w (Deliver t (Some t) BLOCK_SIZE zero_error) with
           | Some w' => w'
           | None => w
           end in
  drain (length (inflight w)) t w.

(** Modelled from the spec: one poll iteration of the reactor on [core],
    round-robin over its work units. *)
Definition reactor_iteration (core : nat) (w : world) : world :=
  foldl (λ w j, poll_thread (core * THREADS_PER_REACTOR + j) w)
        w (seq 0 THREADS_PER_REACTOR).

Definition stop_requested (w : world) : bool :=
  bool_decide (count is_stop (trace w) ≠ 0%nat).

(** Modelled from the spec: the pool runs both reactors until a stop has
    been requested, which is honoured after the current poll iteration.
    The result is the number of poll iterations and the state reached;
    [None] when [iters] iterations do not suffice. *)
Fixpoint run_pool (iters : nat) (w : world) : option (nat * world) :=
  if stop_requested w then Some (0%nat, w)
  else match iters with
       | O => None
       | S n =>
           match run_pool n (reactor_iteration 1 (reactor_iteration 0 w)) with
           | Some (k, w') => Some (S k, w')
           | None => None
           end
       end.

(** [main] on the zero-error double: [spdk_app_start] returns once a stop
    has been requested, then [spdk_app_fini] and [return 0].  The result
    is the exit status, the number of poll iterations and the final state. *)
Definition main (open_rc : Z) (iters : nat) : option (Z * nat * world) :=
  match run_pool iters (app_start open_rc initial) with
  | Some (k, w) => Some (0, k, emit EAppFini w)
  | None => None
  end.

(** ** Completions on two reactors at once *)

(** Where a reactor stands inside [io_complete]: outside, after the load of
    [g_total_completed++] (with the value read), or after its store and
    before the test. *)
Inductive pc : Type :=
| Idle
| Loaded (tmp : Z)
| Stored.

(** The shared state and the position of each reactor. *)
Record conc : Type := {
  shared : world;
  regs : list pc
}.

(** Modelled from the spec: the reactor that polls the queue a request was
    submitted on; channel [c] belongs to work unit [c]. *)
Definition reactor_of (rq : option chan * option addr) : option nat :=
  (λ c, c `div` THREADS_PER_REACTOR)%nat <$> rq.1.

(** Reactor [r] performs its next step: when outside the callback it takes
    the oldest completed read of its queues and enters [io_complete] with
    the load of [g_total_completed]; inside, it performs the store, then
    the test. *)
Definition micro_step (s : conc) (r : nat) : conc :=
  match regs s !! r with
  | Some Idle =>
      match list_find (λ rq, reactor_of rq = Some r) (inflight (shared s)) with
      | Some (k, _) =>
          let w := emit (ECallback true)
                     (set_inflight (delete k (inflight (shared s))) (shared s)) in
          {| shared := w; regs := <[r := Loaded (g_total_completed w)]> (regs s) |}
      | None => s
      end
  | Some (Loaded tmp) =>
      {| shared := set_completed (u64 (tmp + 1)) (shared s);
         regs := <[r := Stored]> (regs s) |}
  | Some Stored =>
      {| shared := stop_if_done (shared s); regs := <[r := Idle]> (regs s) |}
  | None => s
  end.

(** A schedule names the reactor that moves next. *)
Definition interleave (s : conc) (sched : list nat) : conc :=
  foldl micro_step s sched.

(** The same with the increment of bdev_reactor_multi_threads.c:
    [__atomic_fetch_add] reads and writes [g_total_completed] in one step. *)
Definition micro_step_atomic (s : conc) (r : nat) : conc :=
  match regs s !! r with
  | Some Idle =>
      match list_find (λ rq, reactor_of rq = Some r) (inflight (shared s)) with
      | Some (k, _) =>
          let w := emit (ECallback true)
                     (set_inflight (delete k (inflight (shared s))) (shared s)) in
          {| shared := set_completed (u64 (g_total_completed w + 1)) w;
             regs := <[r := Stored]> (regs s) |}
      | None => s
      end
  | Some (Loaded _) => s
  | Some Stored =>
      {| shared := stop_if_done (shared s); regs := <[r := Idle]> (regs s) |}
  | None => s
  end.

Definition interleave_atomic (s : conc) (sched : list nat) : conc :=
  foldl micro_step_atomic s sched.

(** Scenario A after 14 of the 16 completions, delivered one at a time:
    one read of work unit 1 (reactor 0) and one of work unit 3 (reactor 1)
    are still held by the bdev layer. *)
Definition fourteen_done : list label :=
  map (λ t, Deliver t (Some t) BLOCK_SIZE zero_error) (seq 0 4)
  ++ replicate 7 (Complete 0 true) ++ replicate 7 (Complete 1 true).

Definition two_left : conc :=
  {| shared := default initial (run (app_start 0 initial) fourteen_done);
     regs := [Idle; Idle] |}.

(** What every serial run keeps, whatever the library answers: each of the
    16 expected reads is counted as completed, held by the bdev layer,
    refused by it, or still to be issued by a thread whose message waits;
    a stop has been requested exactly when the counter stands at 16;
    nothing has been freed or released. *)
Definition minv (w : world) : Prop :=
  g_total_expected w = 16 ∧ 0 ≤ g_total_completed w ∧ NoDup (inbox w) ∧
  g_total_completed w + Z.of_nat (length (inflight w))
    + 4 * Z.of_nat (length (inbox w))
    + Z.of_nat (count is_refused (trace w)) = 16 ∧
  (count is_read (trace w) + 4 * length (inbox w) = 16)%nat ∧
  count is_stop (trace w) =
    (if decide (g_total_completed w = 16) then 1%nat else 0%nat) ∧
  count is_free (trace w) = 0%nat ∧ count is_release (trace w) = 0%nat ∧
  length (live_blocks (trace w)) = count is_dma_alloc (trace w).



End BdevMulticore.

(** * Calls of the NVMe driver programs *)

(** The programs that drive the NVMe controller directly make, besides
    the calls above, these. *)
Inductive call : Type :=
| Lib (e : event)
| AllocQpair (res : option nat)        (* spdk_nvme_ctrlr_alloc_io_qpair *)
| ThreadCreate (core : nat) (ok : bool) (* spdk_thread_create, with a cpumask *)
| Probe (rc : Z)                       (* spdk_nvme_probe *)
| EnvFini.                             (* spdk_env_fini *)

Definition ncount (p : call → bool) (tr : list call) : nat :=
  length (filter (λ c, p c = true) tr).

Definition is_alloc_qpair (c : call) : bool :=
  match c with AllocQpair _ => true | _ => false end.
Definition is_thread_create (c : call) : bool :=
  match c with ThreadCreate _ _ => true | _ => false end.
Definition is_env_fini (c : call) : bool :=
  match c with EnvFini => true | _ => false end.
Definition is_lib (p : event → bool) (c : call) : bool :=
  match c with Lib e => p e | _ => false end.

(** * nvme_multicore_multi_qpair.c *)

Module NvmeMulticoreQpair.

Definition NUM_QPAIR : nat := 4.
Definition IO_PER_QP : nat := 4.

(** [struct qpair_ctx]; a NULL queue pair is [None]. *)
Record qpair_ctx : Type := {
  qpair : option nat;
  id : Z
}.

(** One [struct thread_ctx] (its [qpairs] array; the controller is the one
    connected device), the next unused block number, the calls made. *)
Record world : Type := {
  qpairs : list qpair_ctx;
  brk : addr;
  trace : list call
}.

Definition emit (c : call) (w : world) : world :=
  {| qpairs := qpairs w; brk := brk w; trace := trace w ++ [c] |}.

Definition set_qpairs (l : list qpair_ctx) (w : world) : world :=
  {| qpairs := l; brk := brk w; trace := trace w |}.

Definition set_brk (n : addr) (w : world) : world :=
  {| qpairs := qpairs w; brk := n; trace := trace w |}.

Definition with_id (i : Z) (q : qpair_ctx) : qpair_ctx :=
  {| qpair := qpair q; id := i |}.
Definition with_qpair (o : option nat) (q : qpair_ctx) : qpair_ctx :=
  {| qpair := o; id := id q |}.

(** The loop of [init_ctrlr] over the indices [idx]; [alloc i] is what
    [spdk_nvme_ctrlr_alloc_io_qpair] returns in round [i].  The loop is
    left with -1 at the first NULL. *)
Fixpoint init_loop (alloc : nat → option nat) (idx : list nat) (w : world)
    : Z * world :=
  match idx with
  | [] => (0, w)
  | i :: idx' =>
      let w := set_qpairs (alter (with_id (Z.of_nat i)) i (qpairs w)) w in
      let q := alloc i in
      let w := emit (AllocQpair q)
                 (set_qpairs (alter (with_qpair q) i (qpairs w)) w) in
      match q with
      | None => (-1, w)
      | Some _ => init_loop alloc idx' w
      end
  end.

(** [init_ctrlr(ctrlr, t)]. *)
Definition init_ctrlr (alloc : nat → option nat) (w : world) : Z * world :=
  init_loop alloc (seq 0 NUM_QPAIR) w.

(** One round of the outer loop of [thread_work]; [ss] is the sector size,
    [zmalloc_ok i] tells whether the allocation of round [i] succeeds and
    [rc i j] is what the [j]-th [spdk_nvme_ns_cmd_read] of round [i]
    returns.  Neither result is looked at. *)
Definition round (ss : Z) (zmalloc_ok : nat → bool) (rc : nat → nat → Z)
    (w : world) (i : nat) : world :=
  let qp := qpairs w !! i ≫= qpair in
  let '(buf, w) :=
    if zmalloc_ok i
    then (Some (brk w),
          emit (Lib (EDmaAlloc ss (Some (brk w)))) (set_brk (S (brk w)) w))
    else (None, emit (Lib (EDmaAlloc ss None)) w) in
  foldl (λ w j, emit (Lib (ENvmeRead qp buf (Z.of_nat j) 1 (rc i j))) w)
        w (seq 0 IO_PER_QP).

(** [thread_work(arg)]. *)
Definition thread_work (ss : Z) (zmalloc_ok : nat → bool) (rc : nat → nat → Z)
    (w : world) : world :=
  foldl (round ss zmalloc_ok rc) w (seq 0 NUM_QPAIR).

(** The buffer round [i] of [thread_work] works with: NULL if the
    allocation of the round fails, and else the block after those of the
    earlier rounds. *)
Definition buf_of (zmalloc_ok : nat → bool) (w : world) (i : nat) : option addr :=
  if zmalloc_ok i
  then Some (length (filter (λ i', zmalloc_ok i' = true) (seq 0 i)) + brk w)%nat
  else None.

(** The calls of a round [i] that works with buffer [b]: the allocation
    and [IO_PER_QP] reads on the queue pair stored at index [i]. *)
Definition round_calls (ss : Z) (rc : nat → nat → Z) (w : world)
    (b : option addr) (i : nat) : list call :=
  Lib (EDmaAlloc ss b) ::
  map (λ j, Lib (ENvmeRead (qpairs w !! i ≫= qpair) b (Z.of_nat j) 1 (rc i j)))
      (seq 0 IO_PER_QP).

(** What [app_start] sets up for one core: [init_ctrlr] on the core's
    [thread_ctx], whose result is dropped, and then [thread_work] on the
    same [thread_ctx]. *)
Definition app_start_core (alloc : nat → option nat) (ss : Z)
    (zmalloc_ok : nat → bool) (rc : nat → nat → Z) (w : world) : world :=
  thread_work ss zmalloc_ok rc (init_ctrlr alloc w).2.

End NvmeMulticoreQpair.

(** * spdk_nvme_app.c *)

Module SpdkNvmeApp.

(** Answers of the library to the calls of [main]: the cores of the
    reactor mask, whether a thread can be created for a core, the return
    code of the probe, the controller it hands to [attach_cb] (if any),
    and the queue pair allocated on it. *)
Record env : Type := {
  env_init_rc : Z;
  cores : list nat;
  thread_ok : nat → bool;
  probe_rc : Z;
  attached : option nat;
  qpair_res : option nat
}.

(** The global [g_ctrlr] and the calls made so far. *)
Record world : Type := {
  g_ctrlr : option nat;
  trace : list call
}.

Definition emit (c : call) (w : world) : world :=
  {| g_ctrlr := g_ctrlr w; trace := trace w ++ [c] |}.

(** [attach_cb]: logs and stores the controller. *)
Definition attach_cb (ctrlr : nat) (w : world) : world :=
  let w := emit (Lib (EStdout "Attached to NVMe controller at %s" [])) w in
  {| g_ctrlr := Some ctrlr; trace := trace w |}.

(** [main]: the exit status and the final state. *)
Definition main (e : env) : Z * world :=
  let w := {| g_ctrlr := None; trace := [Lib (EEnvInit (env_init_rc e))] |} in
  if env_init_rc e <? 0
  then (-1, emit (Lib (EStderr "Unable to initialize SPDK env")) w)
  else
    (* SPDK_ENV_FOREACH_CORE *)
    let w := foldl (λ w core,
                      let ok := thread_ok e core in
                      let w := emit (ThreadCreate core ok) w in
                      if ok
                      then emit (Lib (EStdout "Created SPDK thread bound to core %d"
                                        [Z.of_nat core])) w
                      else emit (Lib (EStderr "Failed to create thread on core %d")) w)
                   w (cores e) in
    (* spdk_nvme_probe calls probe_cb and attach_cb for a controller it finds *)
    let w := match attached e with
             | Some ctrlr =>
                 attach_cb ctrlr
                   (emit (Lib (EStdout "Found NVMe controller at %s" [])) w)
             | None => w
             end in
    let w := emit (Probe (probe_rc e)) w in
    if negb (bool_decide (probe_rc e = 0))
    then (-1, emit (Lib (EStderr "spdk_nvme_probe() failed")) w)
    else
      let w := match g_ctrlr w with
               | Some _ =>
                   let w := emit (AllocQpair (qpair_res e)) w in
                   match qpair_res e with
                   | None => emit (Lib (EStderr "Failed to alloc IO qpair")) w
                   | Some _ =>
                       emit (Lib (EStdout "Created IO qpair for thread %s on NVMe %s"
                                    [])) w
                   end
               | None => w
               end in
      (0, emit EnvFini w).

End SpdkNvmeApp.

(** * Properties *)

(** ** Integers, traces, heap *)

Lemma u64_small z : 0 ≤ z < 2 ^ 64 → u64 z = z.
Proof. intros H. unfold u64. by apply Z.mod_small. Qed.

Lemma count_app p tr1 tr2 :
  count p (tr1 ++ tr2) = (count p tr1 + count p tr2)%nat.
Proof. unfold count. by rewrite filter_app, length_app. Qed.

Lemma count_snoc p tr e :
  count p (tr ++ [e]) = (count p tr + if p e then 1 else 0)%nat.
Proof.
  rewrite count_app. f_equal. unfold count.
  destruct (p e) eqn:E.
  - by rewrite filter_cons_True.
  - rewrite filter_cons_False; [done|]. by rewrite E.
Qed.

Lemma count_cons p e tr :
  count p (e :: tr) = ((if p e then 1 else 0) + count p tr)%nat.
Proof.
  change (e :: tr) with ([e] ++ tr). rewrite count_app.
  change [e] with ([] ++ [e]). by rewrite count_snoc.
Qed.



Lemma live_blocks_app tr1 tr2 :
  live_blocks (tr1 ++ tr2) = foldl heap_step (live_blocks tr1) tr2.
Proof. unfold live_blocks. apply foldl_app. Qed.

Lemma release_head b l : release b (b :: l) = l.
Proof. simpl. by rewrite decide_True. Qed.

(** ** bdev_nvme.c *)

Section bdev_nvme.
Import BdevNvme.

Lemma wait_loop_idle ps w :
  io_submitted (ctx w) ≤ io_completed (ctx w) → wait_loop ps w = (true, w).
Proof.
  intros H. destruct ps; simpl; destruct (Z.ltb_spec (io_completed (ctx w))
    (io_submitted (ctx w))); (done || lia).
Qed.


(** The three ways [submit_bdev_io] can leave a fresh context. *)
Lemma submit_bdev_io_cases buf rc w :
  io_submitted (ctx w) = 0 → io_completed (ctx w) = 0 → outstanding w = [] →
  let w' := submit_bdev_io buf rc w in
  ch (ctx w') = ch (ctx w) ∧ io_completed (ctx w') = 0 ∧
  (∃ tr, trace w' = trace w ++ tr ∧ Forall (λ e, is_handle_event e = false) tr
         ∧ count is_poll tr = 0%nat) ∧
  ((io_submitted (ctx w') = 1 ∧ ∃ b, outstanding w' = [b] ∧ buf = Some b ∧ rc = 0)
   ∨ (io_submitted (ctx w') = 0 ∧ outstanding w' = [] ∧ (buf = None ∨ rc ≠ 0))).
Proof.
  intros Hs Hc Ho. unfold submit_bdev_io.
  destruct buf as [b|]; simpl.
  - destruct (decide (rc = 0)) as [->|Hrc]; simpl; rewrite ?Hs, ?Ho.
    + repeat split; try done.
      * eexists. split; [by rewrite <- !app_assoc|].
        split; [repeat constructor | done].
      * left. split; [done|]. by exists b.
    + repeat split; try done.
      * eexists. split; [by rewrite <- !app_assoc|].
        split; [repeat constructor | done].
      * right. auto.
  - repeat split; try done.
    + eexists. split; [by rewrite <- !app_assoc|].
      split; [repeat constructor | done].
    + right. auto.
Qed.

(** What [main] does once the environment, the device, the descriptor and
    the channel are there. *)
Lemma main_started e c :
  ¬ env_init_rc e < 0 → bdev_found e = true → open_rc e = 0 →
  io_channel e = Some c →
  let w0 := {| ctx := {| ch := c; io_submitted := 0; io_completed := 0 |};
               outstanding := [];
               trace := [EEnvInit (env_init_rc e); EGetByName true; EBdevOpen 0;
                         EGetIoChannel (Some c)] |} in
  let w1 := submit_bdev_io (malloc_res e) (read_rc e) w0 in
  main e =
  match wait_loop (polls e) w1 with
  | (false, w) => (None, w)
  | (true, w) =>
      (Some 0,
       emit EBdevClose
         (emit (EPutIoChannel (ch (ctx w)))
            (emit (EStdout "Bdev IO complete: submitted=%lu completed=%lu"
                     [io_submitted (ctx w); io_completed (ctx w)]) w)))
  end.
Proof.
  intros Hi Hf Ho Hc. unfold main.
  destruct (Z.ltb_spec (env_init_rc e) 0); [lia|].
  rewrite Hf, Ho, Hc. reflexivity.
Qed.

(** C10: when the one submission fails (no buffer, or a nonzero return
    code of [spdk_bdev_read]) the wait loop of [main] is entered with
    [io_submitted = 0]; its body is never run (no poll is made, whatever
    the polls would deliver, even none), the program reports
    submitted=0 completed=0, puts the channel back, closes the descriptor
    and exits with status 0. *)
Theorem main_zero_submissions e c :
  ¬ env_init_rc e < 0 → bdev_found e = true → open_rc e = 0 →
  io_channel e = Some c →
  malloc_res e = None ∨ read_rc e ≠ 0 →
  ∃ w tr,
    main e = (Some 0, w) ∧
    io_submitted (ctx w) = 0 ∧ io_completed (ctx w) = 0 ∧
    count is_poll (trace w) = 0%nat ∧
    trace w = tr ++ [EStdout "Bdev IO complete: submitted=%lu completed=%lu" [0; 0];
                     EPutIoChannel c; EBdevClose].
Proof.
  intros Hi Hf Ho Hc Hfail.
  rewrite (main_started e c Hi Hf Ho Hc).
  match goal with |- context [wait_loop _ ?w1] => set (w := w1) end.
  destruct (submit_bdev_io_cases (malloc_res e) (read_rc e)
              {| ctx := {| ch := c; io_submitted := 0; io_completed := 0 |};
                 outstanding := [];
                 trace := [EEnvInit (env_init_rc e); EGetByName true;
                           EBdevOpen 0; EGetIoChannel (Some c)] |}
              eq_refl eq_refl eq_refl)
    as (Hch & Hcompl & (tr & Htr & _ & Hpoll) & Hcase).
  fold w in Hch, Hcompl, Htr, Hcase. simpl in Hch, Htr.
  destruct Hcase as [(_ & b & _ & Hb & Hrc) | (Hsub & _ & _)].
  { destruct Hfail as [Hm | Hr]; congruence. }
  rewrite wait_loop_idle by lia.
  eexists _, _. split; [reflexivity|]. simpl.
  rewrite Hsub, Hcompl, Hch, Htr.
  split; [reflexivity|]. split; [reflexivity|]. split.
  - rewrite 3!count_snoc, 4!count_cons, Hpoll. reflexivity.
  - rewrite <- 2!app_assoc. reflexivity.
Qed.

(** A run with a device on which the submission fails. *)
Lemma main_zero_submissions_witness :
  ∃ w tr,
    main {| env_init_rc := 0; bdev_found := true; open_rc := 0;
            io_channel := Some 7%nat; malloc_res := Some 0%nat;
            read_rc := -12; polls := [] |} = (Some 0, w) ∧
    io_submitted (ctx w) = 0 ∧ io_completed (ctx w) = 0 ∧
    count is_poll (trace w) = 0%nat ∧
    trace w = tr ++ [EStdout "Bdev IO complete: submitted=%lu completed=%lu" [0; 0];
                     EPutIoChannel 7%nat; EBdevClose].
Proof.
  apply (main_zero_submissions
           {| env_init_rc := 0; bdev_found := true; open_rc := 0;
              io_channel := Some 7%nat; malloc_res := Some 0%nat;
              read_rc := -12; polls := [] |} 7%nat);
    simpl; try reflexivity; lia.
Defined.




(** When the read is accepted and completes, [io_complete] frees the
    [bdev_io] but not the buffer: it is still allocated when [main]
    returns. *)
Lemma main_buffer_not_freed :
  ∃ w, main {| env_init_rc := 0; bdev_found := true; open_rc := 0;
               io_channel := Some 7%nat; malloc_res := Some 0%nat;
               read_rc := 0; polls := [Some true] |} = (Some 0, w) ∧
       live_blocks (trace w) = [0%nat] ∧ count is_free (trace w) = 0%nat.
Proof. eexists. repeat split; vm_compute; reflexivity. Qed.

End bdev_nvme.

(** ** Failed submissions *)

Section failed_submission.

Lemma reactor_submit_failed bsz a t lba num_blocks w :
  BdevReactor.calloc_ok a = false ∨ BdevReactor.zmalloc_ok a = false
    ∨ BdevReactor.read_rc a ≠ 0 →
  let w' := BdevReactor.submit_one_io bsz a t lba num_blocks w in
  BdevReactor.g_ctx w' = BdevReactor.g_ctx w ∧
  BdevReactor.g_total_completed w' = BdevReactor.g_total_completed w ∧
  BdevReactor.g_total_expected w' = BdevReactor.g_total_expected w ∧
  BdevReactor.inflight w' = BdevReactor.inflight w ∧
  BdevReactor.inbox w' = BdevReactor.inbox w ∧
  live_blocks (BdevReactor.trace w') = live_blocks (BdevReactor.trace w) ∧
  count is_stderr (BdevReactor.trace w') =
    S (count is_stderr (BdevReactor.trace w)).
Proof.
  intros Hfail. unfold BdevReactor.submit_one_io.
  destruct (BdevReactor.calloc_ok a) eqn:Hc.
  - destruct (BdevReactor.zmalloc_ok a) eqn:Hz.
    + destruct (decide (BdevReactor.read_rc a = 0)) as [Hr|Hr].
      { destruct Hfail as [?|[?|?]]; congruence. }
      simpl. repeat (split; [reflexivity|]). split.
      * rewrite <- !app_assoc, live_blocks_app.
        cbn [foldl heap_step app]. by rewrite !release_head.
      * rewrite !count_snoc. simpl. lia.
    + simpl. repeat (split; [reflexivity|]). split.
      * rewrite <- !app_assoc, live_blocks_app.
        cbn [foldl heap_step app]. by rewrite !release_head.
      * rewrite !count_snoc. simpl. lia.
  - simpl. repeat (split; [reflexivity|]). split.
    + by rewrite <- !app_assoc, live_blocks_app.
    + rewrite !count_snoc. simpl. lia.
Qed.

Lemma nvme_submit_failed buf rc w :
  buf = None ∨ rc ≠ 0 →
  let w' := BdevNvme.submit_bdev_io buf rc w in
  BdevNvme.ctx w' = BdevNvme.ctx w ∧
  BdevNvme.outstanding w' = BdevNvme.outstanding w ∧
  live_blocks (BdevNvme.trace w') = live_blocks (BdevNvme.trace w) ∧
  count is_stderr (BdevNvme.trace w') = S (count is_stderr (BdevNvme.trace w)).
Proof.
  intros Hfail. unfold BdevNvme.submit_bdev_io.
  destruct buf as [b|].
  - destruct (decide (rc = 0)) as [Hr|Hr].
    { destruct Hfail; congruence. }
    simpl. repeat (split; [reflexivity|]). split.
    + rewrite <- !app_assoc, live_blocks_app.
      cbn [foldl heap_step app]. by rewrite release_head.
    + rewrite !count_snoc. simpl. lia.
  - simpl. repeat (split; [reflexivity|]). split.
    + by rewrite <- !app_assoc, live_blocks_app.
    + rewrite !count_snoc. simpl. lia.
Qed.

(** C9: a submission that fails (an allocation returns NULL, or
    [spdk_bdev_read] returns a nonzero code) changes nothing but the error
    output.  For [submit_one_io] of bdev_reactor_multi_threads.c and for
    [submit_bdev_io] of bdev_nvme.c: every block the call allocated (DMA
    buffer, task record) is freed again before it returns, the submitted
    and completed counters and the requests held by the bdev layer are the
    same after the call as before, and one line went to stderr. *)
Theorem failed_submission_effect_free :
  (∀ bsz a t lba num_blocks w,
     BdevReactor.calloc_ok a = false ∨ BdevReactor.zmalloc_ok a = false
       ∨ BdevReactor.read_rc a ≠ 0 →
     let w' := BdevReactor.submit_one_io bsz a t lba num_blocks w in
     BdevReactor.g_ctx w' = BdevReactor.g_ctx w ∧
     BdevReactor.g_total_completed w' = BdevReactor.g_total_completed w ∧
     BdevReactor.inflight w' = BdevReactor.inflight w ∧
     live_blocks (BdevReactor.trace w') = live_blocks (BdevReactor.trace w) ∧
     count is_stderr (BdevReactor.trace w') =
       S (count is_stderr (BdevReactor.trace w))) ∧
  (∀ buf rc w,
     buf = None ∨ rc ≠ 0 →
     let w' := BdevNvme.submit_bdev_io buf rc w in
     BdevNvme.ctx w' = BdevNvme.ctx w ∧
     BdevNvme.outstanding w' = BdevNvme.outstanding w ∧
     live_blocks (BdevNvme.trace w') = live_blocks (BdevNvme.trace w) ∧
     count is_stderr (BdevNvme.trace w') =
       S (count is_stderr (BdevNvme.trace w))).
Proof.
  split.
  - intros bsz a t lba num_blocks w Hfail.
    destruct (reactor_submit_failed bsz a t lba num_blocks w Hfail)
      as (H1 & H2 & _ & H4 & _ & H6 & H7).
    repeat split; assumption.
  - intros buf rc w Hfail. by apply nvme_submit_failed.
Qed.

(** A read refused with [-ENOMEM] by the bdev layer, in both programs. *)
Lemma failed_submission_effect_free_witness :
  (let w := BdevReactor.app_start 0 BdevReactor.initial in
   let w' := BdevReactor.submit_one_io 4096
               {| BdevReactor.calloc_ok := true; BdevReactor.zmalloc_ok := true;
                  BdevReactor.read_rc := -12 |} 0 0 1 w in
   BdevReactor.g_ctx w' = BdevReactor.g_ctx w ∧
   BdevReactor.inflight w' = BdevReactor.inflight w ∧
   live_blocks (BdevReactor.trace w') = live_blocks (BdevReactor.trace w)) ∧
  (let w := BdevNvme.start in
   let w' := BdevNvme.submit_bdev_io (Some 0%nat) (-12) w in
   BdevNvme.ctx w' = BdevNvme.ctx w ∧
   live_blocks (BdevNvme.trace w') = live_blocks (BdevNvme.trace w)).
Proof.
  destruct failed_submission_effect_free as [HR HN]. split.
  - destruct (HR 4096
                {| BdevReactor.calloc_ok := true; BdevReactor.zmalloc_ok := true;
                   BdevReactor.read_rc := -12 |} 0%nat 0 1
                (BdevReactor.app_start 0 BdevReactor.initial))
      as (H1 & _ & H3 & H4 & _).
    + right. right. simpl. lia.
    + cbv zeta. split; [exact H1 | split; [exact H3 | exact H4]].
  - destruct (HN (Some 0%nat) (-12) BdevNvme.start) as (H1 & _ & H3 & _).
    + right. lia.
    + cbv zeta. split; [exact H1 | exact H3].
Defined.

End failed_submission.

(** ** Buffers of bdev_reactor_multi_threads.c *)

Section reactor_buffers.
Import BdevReactor.

(** [io_complete] frees the buffer and the task record of its request,
    whatever the completion status. *)
Lemma io_complete_frees p task success w :
  live_blocks (trace (io_complete p task success w)) =
    release p (release (buf task) (live_blocks (trace w))) ∧
  count is_free (trace (io_complete p task success w)) =
    (count is_free (trace w) + 2)%nat.
Proof.
  unfold io_complete. simpl.
  destruct (decide (u64 (g_total_completed w + 1) = g_total_expected w));
    simpl; rewrite <- !app_assoc, live_blocks_app, !count_app;
    cbn [foldl heap_step app]; split; try done; vm_compute; lia.
Qed.

(** A whole run: 48 blocks are allocated (24 task records, 24 buffers),
    each is freed exactly once, on the success and on the error path
    alike, and nothing is left when the application stops. *)
Lemma reactor_blocks_round_trip :
  ∃ w, run (app_start 0 initial) whole_run = Some w ∧
       g_total_completed w = g_total_expected w ∧
       count is_stop (trace w) = 1%nat ∧
       live_blocks (trace w) = [] ∧
       Forall (λ b, frees_of b (trace w) = 1%nat) (seq 0 48).
Proof.
  eexists. split; [vm_compute; reflexivity|].
  split; [vm_compute; reflexivity|]. split; [vm_compute; reflexivity|].
  split; [vm_compute; reflexivity|].
  simpl seq. repeat (constructor; [vm_compute; reflexivity|]). constructor.
Qed.

End reactor_buffers.

(** ** Arguments of a submission *)

Section unchecked_arguments.
Import BdevReactor.

(** C5, counterexample: Scenario B on [submit_one_io].  A read of zero
    blocks at LBA 0 is handed to the bdev layer, and when that layer takes
    it the submitted counter and the requests in flight move.  The call is
    not rejected. *)
Lemma submit_one_io_zero_blocks_not_rejected :
  let w := thread_work_upto 0 (Some 0%nat) 4096 1000 (λ _, accept_all) 0
             (app_start 0 initial) in
  ¬ spec_rejected 0 w (submit_one_io 4096 accept_all 0 0 0 w).
Proof.
  intros w [H _]. vm_compute in H. discriminate.
Qed.

(** What one call of [submit_one_io] does to the state. *)
Lemma submit_one_io_effect bsz a t lba num_blocks w :
  let w' := submit_one_io bsz a t lba num_blocks w in
  let issued := calloc_ok a && zmalloc_ok a in
  let taken := issued && bool_decide (read_rc a = 0) in
  count is_read (trace w') =
    (count is_read (trace w) + if issued then 1 else 0)%nat ∧
  g_ctx w' = (if taken then alter inc_submitted t (g_ctx w) else g_ctx w) ∧
  inflight w' =
    (if taken
     then inflight w ++ [(brk w, {| tctx := t; buf := S (brk w) |})]
     else inflight w) ∧
  g_total_completed w' = g_total_completed w ∧
  g_total_expected w' = g_total_expected w ∧
  inbox w' = inbox w.
Proof.
  unfold submit_one_io.
  destruct (calloc_ok a), (zmalloc_ok a); simpl;
    try (rewrite !count_snoc; simpl; repeat split; lia).
  rewrite bool_decide_decide.
  destruct (decide (read_rc a = 0)); simpl;
    rewrite !count_snoc; simpl; repeat split; lia.
Qed.

(** C5 (amended): [submit_one_io] checks none of its arguments and returns
    nothing.  Whatever [lba] and [num_blocks] are, the read is handed to
    the bdev layer as soon as both allocations succeed, and the submitted
    counter of the thread and the requests in flight change exactly when
    that layer returns 0; otherwise both are unchanged. *)
Theorem submit_one_io_unchecked bsz a t lba num_blocks w :
  let w' := submit_one_io bsz a t lba num_blocks w in
  let issued := calloc_ok a && zmalloc_ok a in
  let taken := issued && bool_decide (read_rc a = 0) in
  count is_read (trace w') =
    (count is_read (trace w) + if issued then 1 else 0)%nat ∧
  g_ctx w' = (if taken then alter inc_submitted t (g_ctx w) else g_ctx w) ∧
  inflight w' =
    (if taken
     then inflight w ++ [(brk w, {| tctx := t; buf := S (brk w) |})]
     else inflight w).
Proof.
  destruct (submit_one_io_effect bsz a t lba num_blocks w) as (H1 & H2 & H3 & _).
  cbv zeta. split; [exact H1 | split; [exact H2 | exact H3]].
Qed.

End unchecked_arguments.

(** ** Queue depth *)

Section queue_depth.
Import BdevNvmeMulti.







End queue_depth.

(** ** Completion accounting of bdev_reactor_multi_threads.c *)

Section accounting.
Import BdevReactor.

Lemma sumf_alter f g (l : list thread_ctx) i c :
  l !! i = Some c → sumf f (alter g i l) = sumf f l - f c + f (g c).
Proof.
  revert i. induction l as [|x l IH]; intros [|i] H; simplify_eq/=.
  - lia.
  - rewrite (IH i H). lia.
Qed.

Lemma sumf_alter_same f g (l : list thread_ctx) i :
  (∀ c, f (g c) = f c) → sumf f (alter g i l) = sumf f l.
Proof.
  intros Hfg. revert i. induction l as [|x l IH]; intros [|i]; simpl; try done.
  - by rewrite Hfg.
  - f_equal. apply IH.
Qed.

Lemma sumf_le f g (l : list thread_ctx) :
  (∀ i c, l !! i = Some c → f c ≤ g c) → sumf f l ≤ sumf g l.
Proof.
  induction l as [|x l IH]; intros H; simpl; [lia|].
  pose proof (H 0%nat x eq_refl).
  assert (sumf f l ≤ sumf g l) by (apply IH; intros i c Hi; apply (H (S i) c Hi)).
  lia.
Qed.

Lemma sumf_bound f B (l : list thread_ctx) :
  (∀ i c, l !! i = Some c → f c ≤ B) → sumf f l ≤ B * Z.of_nat (length l).
Proof.
  induction l as [|x l IH]; intros H; simpl length; simpl sumf; [lia|].
  pose proof (H 0%nat x eq_refl).
  assert (sumf f l ≤ B * Z.of_nat (length l))
    by (apply IH; intros i c Hi; apply (H (S i) c Hi)).
  lia.
Qed.

Lemma sumf_nonneg f (l : list thread_ctx) :
  (∀ i c, l !! i = Some c → 0 ≤ f c) → 0 ≤ sumf f l.
Proof.
  induction l as [|x l IH]; intros H; simpl; [lia|].
  pose proof (H 0%nat x eq_refl).
  assert (0 ≤ sumf f l) by (apply IH; intros i c Hi; apply (H (S i) c Hi)).
  lia.
Qed.

(** Taking the [k]-th request out of a list lowers the count of those that
    satisfy [P] by one if it is one of them. *)
Lemma filter_delete_length {A} (P : A → Prop) `{∀ x, Decision (P x)}
    (l : list A) k x :
  l !! k = Some x →
  length (filter P l) =
  (length (filter P (delete k l)) + if decide (P x) then 1 else 0)%nat.
Proof.
  revert k. induction l as [|y l IH]; intros [|k] Hk; try discriminate.
  - injection Hk as ->. change (delete 0 (x :: l)) with l.
    rewrite filter_cons. destruct (decide (P x)); simpl; lia.
  - change (delete (S k) (y :: l)) with (y :: delete k l).
    change ((y :: l) !! S k) with (l !! k) in Hk.
    rewrite !filter_cons. pose proof (IH k Hk) as E.
    destruct (decide (P y)); simpl; lia.
Qed.

Lemma inv_on_mono b b' g n l inb :
  (∀ i, b i ≤ b' i) → inv_on b g n l inb → inv_on b' g n l inb.
Proof.
  intros Hb (H1 & H2 & H3 & H4 & H5). repeat split; try done;
    destruct (H5 i c) as (? & ? & ? & ?); try done.
  specialize (Hb i). lia.
Qed.

Lemma inv_on_take b g n l inb t :
  inv_on b g n l inb → inv_on b g n l (filter (λ i, i ≠ t) inb).
Proof.
  intros (H1 & H2 & H3 & H4 & H5). repeat split; try done.
  - apply Forall_forall. intros x Hx.
    apply list_elem_of_filter in Hx as [_ Hx].
    by apply (proj1 (Forall_forall _ _) H4).
  - by destruct (H5 i c) as (? & ? & ? & ?).
  - by destruct (H5 i c) as (? & ? & ? & ?).
  - by destruct (H5 i c) as (? & ? & ? & ?).
  - intros Hi. apply list_elem_of_filter in Hi as [_ Hi].
    destruct (H5 i c) as (? & ? & ? & Hz); auto.
Qed.

Lemma inv_on_with_ch b g n l inb o t :
  inv_on b g n l inb → inv_on b (alter (with_ch o) t g) n l inb.
Proof.
  intros (H1 & H2 & H3 & H4 & H5).
  assert (Hlk : ∀ i c, alter (with_ch o) t g !! i = Some c →
            ∃ c0, g !! i = Some c0 ∧ completed c = completed c0
                  ∧ submitted c = submitted c0).
  { intros i c. destruct (decide (i = t)) as [->|Hne].
    - rewrite list_lookup_alter_eq. destruct (g !! t) as [c0|]; [|done].
      intros [= <-]. by exists c0.
    - rewrite list_lookup_alter_ne by done. intros Hc. by exists c. }
  split; [by rewrite length_alter|]. split.
  { by rewrite sumf_alter_same. }
  repeat split; try done;
    destruct (Hlk i c H) as (c0 & Hc0 & Hcc & Hss); rewrite ?Hcc, ?Hss;
    by destruct (H5 i c0 Hc0) as (? & ? & ? & ?).
Qed.

(** Under the invariant no counter is anywhere near wrapping. *)
Lemma inv_on_total b g n l inb :
  (∀ i, b i ≤ Z.of_nat IO_PER_THREAD) → inv_on b g n l inb →
  0 ≤ n ∧ n ≤ sumf submitted g ∧
  sumf submitted g ≤ Z.of_nat THREADS_PER_REACTOR * Z.of_nat IO_PER_THREAD.
Proof.
  intros Hb (H1 & H2 & H3 & H4 & H5). subst n. split; [|split].
  - apply sumf_nonneg. intros i c Hc. by destruct (H5 i c Hc).
  - apply sumf_le. intros i c Hc. destruct (H5 i c Hc) as (? & ? & ? & ?). lia.
  - rewrite <- H1, Z.mul_comm. apply sumf_bound. intros i c Hc.
    destruct (H5 i c Hc) as (? & ? & ? & ?). specialize (Hb i). lia.
Qed.

(** A completion of a request the bdev layer holds keeps the invariant. *)
Lemma inv_on_complete b g n l inb k p task :
  (∀ i, b i ≤ Z.of_nat IO_PER_THREAD) →
  inv_on b g n l inb → l !! k = Some (p, task) →
  inv_on b (alter inc_completed (tctx task) g) (u64 (n + 1)) (delete k l) inb.
Proof.
  intros Hb Hinv Hk.
  destruct (inv_on_total _ _ _ _ _ Hb Hinv) as (Hn0 & Hn1 & Hn2).
  destruct Hinv as (H1 & H2 & H3 & H4 & H5).
  pose proof (Forall_lookup_1 _ _ _ _ H3 Hk) as Ht. simpl in Ht.
  destruct (lookup_lt_is_Some_2 g (tctx task)) as [c Hc]; [lia|].
  destruct (H5 _ c Hc) as (Hc0 & Hsum & Hle & Hbox).
  assert (Hdel : ∀ i, owed l i =
            (owed (delete k l) i + if decide (tctx task = i) then 1 else 0)%nat).
  { intros i. unfold owed.
    by rewrite (filter_delete_length (λ pt, tctx pt.2 = i) l k (p, task) Hk). }
  pose proof (Hdel (tctx task)) as Hdt. rewrite decide_True in Hdt by done.
  specialize (Hb (tctx task)). unfold IO_PER_THREAD, THREADS_PER_REACTOR in *.
  assert (Hu : u64 (completed c + 1) = completed c + 1)
    by (apply u64_small; lia).
  split; [by rewrite length_alter|]. split.
  { rewrite (sumf_alter _ _ _ _ c Hc). simpl. rewrite Hu, u64_small; lia. }
  split; [by apply Forall_delete|]. split; [done|].
  intros i c'. destruct (decide (i = tctx task)) as [->|Hne].
  - rewrite list_lookup_alter_eq, Hc. intros [= <-]. simpl. rewrite Hu.
    repeat split; try lia. exact Hbox.
  - rewrite list_lookup_alter_ne by done. intros Hc'.
    destruct (H5 i c' Hc') as (? & ? & ? & ?). specialize (Hdel i).
    rewrite decide_False in Hdel by done.
    repeat split; try done. lia.
Qed.

(** A read accepted by the bdev layer for thread [t] keeps the invariant,
    provided the thread has its message behind it and stays under its
    bound. *)
Lemma inv_on_submit b b' g n l inb t p bf :
  (t < THREADS_PER_REACTOR)%nat → t ∉ inb →
  (∀ i, b i ≤ b' i) → b' t < 2 ^ 64 →
  (∀ c, g !! t = Some c → submitted c + 1 ≤ b' t) →
  inv_on b g n l inb →
  inv_on b' (alter inc_submitted t g) n (l ++ [(p, {| tctx := t; buf := bf |})])
    inb.
Proof.
  intros Ht Hnin Hbb Hb2 Hroom (H1 & H2 & H3 & H4 & H5).
  destruct (lookup_lt_is_Some_2 g t) as [c Hc]; [lia|].
  destruct (H5 _ c Hc) as (Hc0 & Hsum & Hle & Hbox).
  specialize (Hroom c Hc).
  assert (Hu : u64 (submitted c + 1) = submitted c + 1)
    by (apply u64_small; lia).
  assert (Happ : ∀ i, owed (l ++ [(p, {| tctx := t; buf := bf |})]) i =
            (owed l i + if decide (t = i) then 1 else 0)%nat).
  { intros i. unfold owed. rewrite filter_app, length_app. f_equal.
    rewrite filter_cons, filter_nil. simpl. by destruct (decide (t = i)). }
  split; [by rewrite length_alter|]. split.
  { by rewrite sumf_alter_same. }
  split.
  { apply Forall_app. split; [done|]. constructor; [exact Ht | constructor]. }
  split; [done|].
  intros i c'. destruct (decide (i = t)) as [->|Hne].
  - rewrite list_lookup_alter_eq, Hc. intros [= <-]. simpl. rewrite Hu.
    rewrite Happ, decide_True by done. repeat split; try lia. done.
  - rewrite list_lookup_alter_ne by done. intros Hc'.
    destruct (H5 i c' Hc') as (? & ? & ? & ?).
    rewrite Happ, decide_False by done.
    repeat split; try done; [lia|]. specialize (Hbb i). lia.
Qed.

Lemma io_complete_effect p task success w :
  let w' := io_complete p task success w in
  g_ctx w' = alter inc_completed (tctx task) (g_ctx w) ∧
  g_total_completed w' = u64 (g_total_completed w + 1) ∧
  g_total_expected w' = g_total_expected w ∧
  inflight w' = inflight w ∧ inbox w' = inbox w.
Proof.
  unfold io_complete. simpl.
  destruct (decide (u64 (g_total_completed w + 1) = g_total_expected w));
    repeat split; reflexivity.
Qed.

Lemma inv_submit_one_io b b' bsz a t lba num_blocks w :
  (t < THREADS_PER_REACTOR)%nat → t ∉ inbox w →
  (∀ i, b i ≤ b' i) → b' t < 2 ^ 64 →
  (∀ c, g_ctx w !! t = Some c → submitted c + 1 ≤ b' t) →
  inv b w → inv b' (submit_one_io bsz a t lba num_blocks w).
Proof.
  intros Ht Hnin Hbb Hb2 Hroom Hinv. unfold inv in *.
  destruct (submit_one_io_effect bsz a t lba num_blocks w)
    as (_ & -> & -> & -> & _ & ->).
  destruct (calloc_ok a && zmalloc_ok a && bool_decide (read_rc a = 0)).
  - by apply (inv_on_submit b b').
  - by apply (inv_on_mono b b').
Qed.

Lemma submit_loop_inbox n bsz nb ans t w :
  inbox (submit_loop n bsz nb ans t w) = inbox w.
Proof.
  unfold submit_loop. induction n as [|n IH]; [done|].
  rewrite seq_S, foldl_app. simpl.
  match goal with
  | |- inbox (submit_one_io ?b ?a ?t ?l ?k ?w0) = _ =>
      destruct (submit_one_io_effect b a t l k w0) as (_ & _ & _ & _ & _ & ->)
  end.
  exact IH.
Qed.

(** After [n] rounds of its loop a thread has submitted at most [n] reads. *)
Lemma inv_submit_loop n bsz nb ans t w :
  (t < THREADS_PER_REACTOR)%nat → t ∉ inbox w → (n ≤ IO_PER_THREAD)%nat →
  inv (cap t 0) w →
  inv (cap t (Z.of_nat n)) (submit_loop n bsz nb ans t w).
Proof.
  intros Ht Hnin Hn Hinv. induction n as [|n IH]; [done|].
  unfold submit_loop. rewrite seq_S, foldl_app. simpl.
  fold (submit_loop n bsz nb ans t w).
  assert (Hprev : inv (cap t (Z.of_nat n)) (submit_loop n bsz nb ans t w))
    by (apply IH; lia).
  apply (inv_submit_one_io (cap t (Z.of_nat n))); try done.
  - by rewrite submit_loop_inbox.
  - intros i. unfold cap. destruct (decide (i = t)); lia.
  - unfold cap, IO_PER_THREAD in *. rewrite decide_True by done. lia.
  - intros c Hc. destruct Hprev as (_ & _ & _ & _ & H5).
    destruct (H5 t c Hc) as (_ & _ & Hle & _).
    unfold cap in *. rewrite decide_True in * by done. lia.
Qed.

Lemma cap_le_full t n i : n ≤ Z.of_nat IO_PER_THREAD → cap t n i ≤ full i.
Proof. intros Hn. unfold cap, full. destruct (decide (i = t)); lia. Qed.

(** A thread whose message is still waiting has submitted nothing. *)
Lemma inv_on_start g n l inb t :
  t ∈ inb → inv_on full g n l inb → inv_on (cap t 0) g n l inb.
Proof.
  intros Hin (H1 & H2 & H3 & H4 & H5). repeat split; try done;
    destruct (H5 i c) as (? & ? & Hle & Hz); try done.
  unfold cap, full in *. destruct (decide (i = t)) as [->|]; [|done].
  rewrite (Hz Hin). lia.
Qed.

(** [thread_work], stopped after any number of rounds, keeps the invariant. *)
Lemma inv_thread_work_upto n chres bsz nb ans t w :
  (n ≤ IO_PER_THREAD)%nat → t ∈ inbox w → inv full w →
  inv full (thread_work_upto n chres bsz nb ans t
              (set_inbox (filter (λ i, i ≠ t) (inbox w)) w)).
Proof.
  intros Hn Hin Hinv.
  assert (Ht : (t < THREADS_PER_REACTOR)%nat).
  { destruct Hinv as (_ & _ & _ & H4 & _).
    by apply (proj1 (Forall_forall _ _) H4). }
  assert (Hnin : t ∉ filter (λ i, i ≠ t) (inbox w)).
  { intros H. apply list_elem_of_filter in H as [H _]. by apply H. }
  assert (H0 : inv (cap t 0)
                 (set_g_ctx (alter (with_ch chres) t (g_ctx w))
                    (emit (EGetIoChannel chres)
                       (set_inbox (filter (λ i, i ≠ t) (inbox w)) w)))).
  { unfold inv. simpl. apply inv_on_with_ch, inv_on_take.
    by apply inv_on_start. }
  unfold thread_work_upto. destruct chres as [c|].
  - apply (inv_on_mono (cap t (Z.of_nat n))).
    { intros i. apply cap_le_full. lia. }
    apply inv_submit_loop; try done.
  - apply (inv_on_mono (cap t 0)); [|exact H0].
    intros i. apply cap_le_full. lia.
Qed.

Lemma inv_exec w l w' : inv full w → exec w l = Some w' → inv full w'.
Proof.
  intros Hinv. destruct l as [t chres bsz nb ans | k success]; simpl.
  - destruct (decide (t ∈ inbox w)); [|done]. intros [= <-].
    by apply inv_thread_work_upto.
  - destruct (inflight w !! k) as [[p task]|] eqn:Hk; [|done]. intros [= <-].
    unfold inv.
    match goal with
    | |- context [io_complete ?p ?t ?s ?w0] =>
        destruct (io_complete_effect p t s w0) as (-> & -> & _ & -> & ->)
    end.
    simpl. eapply inv_on_complete; [|exact Hinv|exact Hk].
    intros i. unfold full. lia.
Qed.

Lemma inv_run w ls w' : inv full w → run w ls = Some w' → inv full w'.
Proof.
  revert w. induction ls as [|l ls IH]; intros w Hinv; simpl.
  - by intros [= <-].
  - destruct (exec w l) as [w1|] eqn:He; [|done].
    apply IH. by apply (inv_exec w l).
Qed.

Lemma thread_work_upto_expected n chres bsz nb ans t w :
  g_total_expected (thread_work_upto n chres bsz nb ans t w) = g_total_expected w.
Proof.
  unfold thread_work_upto. destruct chres; [|done].
  unfold submit_loop. induction n as [|n IH]; [done|].
  rewrite seq_S, foldl_app. simpl.
  match goal with
  | |- g_total_expected (submit_one_io ?b ?a ?t ?l ?k ?w0) = _ =>
      destruct (submit_one_io_effect b a t l k w0) as (_ & _ & _ & _ & -> & _)
  end.
  exact IH.
Qed.

Lemma exec_expected w l w' :
  exec w l = Some w' → g_total_expected w' = g_total_expected w.
Proof.
  destruct l as [t chres bsz nb ans | k success]; simpl.
  - destruct (decide (t ∈ inbox w)); [|done]. intros [= <-].
    unfold thread_work. by rewrite thread_work_upto_expected.
  - destruct (inflight w !! k) as [[p task]|]; [|done]. intros [= <-].
    match goal with
    | |- context [io_complete ?p ?t ?s ?w0] =>
        destruct (io_complete_effect p t s w0) as (_ & _ & -> & _)
    end.
    done.
Qed.

Lemma run_expected w ls w' :
  run w ls = Some w' → g_total_expected w' = g_total_expected w.
Proof.
  revert w. induction ls as [|l ls IH]; intros w; simpl.
  - by intros [= <-].
  - destruct (exec w l) as [w1|] eqn:He; [|done]. intros Hr.
    rewrite (IH w1 Hr). by apply (exec_expected w l).
Qed.

Lemma inv_app_start : inv full (app_start 0 initial).
Proof.
  unfold inv, inv_on. simpl. split; [done|]. split; [done|].
  split; [constructor|]. split.
  { repeat constructor. }
  intros [|[|[|i]]] c; simpl; intros [= <-]; simpl;
    unfold full, IO_PER_THREAD; repeat split; try lia; done.
Qed.

(** When the device cannot be opened nothing is ever posted or submitted. *)
Lemma run_failed_open rc ls w :
  rc ≠ 0 → run (app_start rc initial) ls = Some w → w = app_start rc initial.
Proof.
  intros Hrc. unfold app_start. rewrite decide_False by done.
  destruct ls as [|[t chres bsz nb ans | k success] ls]; cbn [run exec].
  - by intros [= <-].
  - destruct (decide (t ∈ _)) as [Hin|Hin]; [|done].
    by apply not_elem_of_nil in Hin.
  - done.
Qed.

Lemma reachable_cases w :
  reachable w →
  inv full w ∧ g_total_expected w = 24 ∨
  ∃ rc, rc ≠ 0 ∧ w = app_start rc initial.
Proof.
  intros (rc & ls & Hrun). destruct (decide (rc = 0)) as [->|Hrc].
  - left. split.
    + apply (inv_run _ _ _ inv_app_start Hrun).
    + by rewrite (run_expected _ _ _ Hrun).
  - right. exists rc. split; [done|]. by apply (run_failed_open rc ls).
Qed.

Lemma inv_ordered w :
  inv full w → g_total_expected w = 24 →
  0 ≤ g_total_completed w ∧ g_total_completed w ≤ total_submitted w ∧
  total_submitted w ≤ g_total_expected w ∧
  ∀ i c, g_ctx w !! i = Some c →
    0 ≤ completed c ∧ completed c ≤ submitted c ∧
    submitted c ≤ Z.of_nat IO_PER_THREAD.
Proof.
  intros Hinv He.
  destruct (inv_on_total full _ _ _ _ (λ _, Z.le_refl _) Hinv) as (H1 & H2 & H3).
  rewrite He. repeat split; try done.
  - by destruct Hinv as (_ & _ & _ & _ & H5); destruct (H5 i c) as (? & ? & ? & ?).
  - destruct Hinv as (_ & _ & _ & _ & H5). destruct (H5 i c) as (? & ? & ? & ?);
      [done|lia].
  - by destruct Hinv as (_ & _ & _ & _ & H5); destruct (H5 i c) as (? & ? & ? & ?).
Qed.

(** C1: at every observation point of every execution of
    bdev_reactor_multi_threads.c (between two handlers, and after every
    round of the loop of [thread_work]) the global completed counter is at
    most the number of submissions counted, summed over the threads, and
    that sum is at most [g_total_expected]; the same holds per thread with
    bound [IO_PER_THREAD].  No counter wraps around. *)
Theorem counters_ordered w :
  observable w →
  0 ≤ g_total_completed w ∧ g_total_completed w ≤ total_submitted w ∧
  total_submitted w ≤ g_total_expected w ∧
  ∀ i c, g_ctx w !! i = Some c →
    0 ≤ completed c ∧ completed c ≤ submitted c ∧
    submitted c ≤ Z.of_nat IO_PER_THREAD.
Proof.
  intros [Hr | (w0 & t & chres & bsz & nb & ans & n & Hr & Hin & Hn & ->)].
  - destruct (reachable_cases w Hr) as [[Hinv He] | (rc & Hrc & ->)].
    + by apply inv_ordered.
    + unfold app_start. rewrite decide_False by done. simpl.
      repeat split; try done;
        destruct i as [|[|[|i]]]; simpl in *; simplify_eq; simpl; lia.
  - destruct (reachable_cases w0 Hr) as [[Hinv He] | (rc & Hrc & ->)].
    + apply inv_ordered.
      * by apply inv_thread_work_upto.
      * by rewrite thread_work_upto_expected.
    + exfalso. revert Hin. unfold app_start. rewrite decide_False by done.
      simpl. apply not_elem_of_nil.
Qed.

(** The first thread has run [thread_work] against a device that takes
    every read, and its first read has completed. *)
Lemma counters_ordered_witness :
  ∃ w, run (app_start 0 initial)
         [Deliver 0 (Some 0%nat) 4096 1000 (λ _, accept_all); Complete 0 true]
       = Some w ∧
       g_total_completed w ≤ total_submitted w ∧
       total_submitted w ≤ g_total_expected w.
Proof.
  eexists. split; [vm_compute; reflexivity|].
  match goal with
  | |- g_total_completed ?w ≤ _ ∧ _ =>
      destruct (counters_ordered w) as (_ & H1 & H2 & _)
  end.
  - left. exists 0, [Deliver 0 (Some 0%nat) 4096 1000 (λ _, accept_all);
                     Complete 0 true]. vm_compute. reflexivity.
  - split; [exact H1 | exact H2].
Defined.

End accounting.

(** ** bdev_multicore_multi_threads.c on the zero-error double *)

Section multicore.
Import BdevMulticore.

(** C4: in Scenario A the program allocates 16 DMA buffers and frees none:
    [io_complete] casts [bdev_io] to void and has no [spdk_free], so when
    [main] returns all 16 buffers are still allocated. *)
Theorem multicore_buffers_leak :
  ∃ w, main 0 1 = Some (0, 1%nat, w) ∧
       count is_dma_alloc (trace w) = 16%nat ∧
       count is_free (trace w) = 0%nat ∧
       live_blocks (trace w) = rev (seq 0 16) ∧
       Forall (λ b, frees_of b (trace w) = 0%nat) (seq 0 16).
Proof.
  eexists. split; [vm_compute; reflexivity|].
  split; [vm_compute; reflexivity|]. split; [vm_compute; reflexivity|].
  split; [vm_compute; reflexivity|].
  simpl seq. repeat (constructor; [vm_compute; reflexivity|]). constructor.
Qed.


(** C2, counterexample: with one read left on each reactor and 14
    completions counted, the two callbacks overlap: reactor 0 loads and stores (15), reactor 1 loads and
    stores (16), then both evaluate the test, find 16 = 16 and call
    [spdk_app_stop(0)].  The trigger fires twice. *)
Lemma overlapping_completions_stop_twice :
  let s := interleave two_left [0; 0; 1; 1; 0; 1]%nat in
  g_total_completed (shared two_left) = 14 ∧
  g_total_completed (shared s) = g_total_expected (shared s) ∧
  inflight (shared s) = [] ∧ regs s = [Idle; Idle] ∧
  filter (λ e, is_stop e = true) (trace (shared s)) = [EAppStop 0; EAppStop 0] ∧
  count is_stop (trace (shared s)) ≠ 1%nat.
Proof. vm_compute. repeat split; try reflexivity. discriminate. Qed.

(** C8: [g_total_completed++] in [io_complete] is a plain load and store.
    With one read left on each reactor and 14 completions counted, both
    reactors load 14 and both store 15: all 16 callbacks have run, the
    counter stands at 15, nothing is left to complete and
    [spdk_app_stop] is never called. *)
Theorem plain_increment_loses_update :
  let s := interleave two_left [0; 1; 0; 1; 0; 1]%nat in
  g_total_completed (shared two_left) = 14 ∧
  count is_callback (trace (shared s)) = 16%nat ∧
  g_total_completed (shared s) = 15 ∧
  g_total_expected (shared s) = 16 ∧
  inflight (shared s) = [] ∧ inbox (shared s) = [] ∧ regs s = [Idle; Idle] ∧
  count is_stop (trace (shared s)) = 0%nat.
Proof. vm_compute. repeat split; reflexivity. Qed.




Lemma filter_ne_length (l : list nat) t :
  NoDup l → t ∈ l → S (length (filter (λ i, i ≠ t) l)) = length l.
Proof.
  induction 1 as [|x l Hx Hl IH]; intros Hin.
  - by apply not_elem_of_nil in Hin.
  - rewrite filter_cons. destruct (decide (x ≠ t)) as [Hne|Heq].
    + simpl. f_equal. apply IH. apply elem_of_cons in Hin as [->|Hin]; done.
    + assert (x = t) as -> by (destruct (decide (x = t)); done).
      simpl. f_equal. clear -Hx. induction l as [|y l IH]; [done|].
      rewrite filter_cons_True.
      * simpl. f_equal. apply IH. intros H. apply Hx. by right.
      * intros ->. apply Hx. by left.
Qed.













End multicore.

(** ** The shutdown trigger *)

Section shutdown_trigger.

Lemma multicore_stop_once flags w :
  0 ≤ BdevMulticore.g_total_completed w < BdevMulticore.g_total_expected w →
  BdevMulticore.g_total_completed w + Z.of_nat (length flags) < 2 ^ 64 →
  let w' := BdevMulticore.completions flags w in
  BdevMulticore.g_total_expected w' = BdevMulticore.g_total_expected w ∧
  BdevMulticore.g_total_completed w' =
    BdevMulticore.g_total_completed w + Z.of_nat (length flags) ∧
  count is_stop (BdevMulticore.trace w') =
    (count is_stop (BdevMulticore.trace w) +
     if decide (BdevMulticore.g_total_expected w
                ≤ BdevMulticore.g_total_completed w + Z.of_nat (length flags))%Z
     then 1 else 0)%nat.
Proof.
  intros Hc. unfold BdevMulticore.completions.
  induction flags as [|s flags IH] using rev_ind; intros Hn; cbv zeta.
  { simpl. rewrite decide_False by lia. repeat split; lia. }
  rewrite length_app in Hn |- *. simpl length in Hn |- *.
  rewrite foldl_app. cbn [foldl].
  destruct IH as (He & Hcnt & Hst); [lia|].
  set (w1 := foldl _ w flags) in *.
  unfold BdevMulticore.io_complete, BdevMulticore.stop_if_done. simpl.
  rewrite Hcnt, He, u64_small by lia.
  destruct (decide (BdevMulticore.g_total_completed w + Z.of_nat (length flags)
                    + 1 = BdevMulticore.g_total_expected w)) as [Heq|Hne];
    simpl; rewrite ?count_snoc, Hst; simpl;
    (split; [done|]); (split; [lia|]);
    repeat case_decide; lia.
Qed.

Lemma reactor_stop_once args w :
  0 ≤ BdevReactor.g_total_completed w < BdevReactor.g_total_expected w →
  BdevReactor.g_total_completed w + Z.of_nat (length args) < 2 ^ 64 →
  let w' := BdevReactor.completions args w in
  BdevReactor.g_total_expected w' = BdevReactor.g_total_expected w ∧
  BdevReactor.g_total_completed w' =
    BdevReactor.g_total_completed w + Z.of_nat (length args) ∧
  count is_stop (BdevReactor.trace w') =
    (count is_stop (BdevReactor.trace w) +
     if decide (BdevReactor.g_total_expected w
                ≤ BdevReactor.g_total_completed w + Z.of_nat (length args))%Z
     then 1 else 0)%nat.
Proof.
  intros Hc. unfold BdevReactor.completions.
  induction args as [|a args IH] using rev_ind; intros Hn; cbv zeta.
  { simpl. rewrite decide_False by lia. repeat split; lia. }
  rewrite length_app in Hn |- *. simpl length in Hn |- *.
  rewrite foldl_app. cbn [foldl].
  destruct IH as (He & Hcnt & Hst); [lia|].
  set (w1 := foldl _ w args) in *.
  unfold BdevReactor.io_complete. simpl.
  rewrite Hcnt, He, u64_small by lia.
  destruct (decide (BdevReactor.g_total_completed w + Z.of_nat (length args)
                    + 1 = BdevReactor.g_total_expected w)) as [Heq|Hne];
    simpl; rewrite ?count_snoc, Hst; simpl;
    (split; [done|]); (split; [lia|]);
    repeat case_decide; lia.
Qed.

(** C2 (amended): there is no latch; the trigger is the equality test at
    the end of [io_complete].  When callbacks run one at a time (as on the
    single reactor of bdev_reactor_multi_threads.c) and the counter does
    not wrap, it fires exactly once: after [n] further callbacks from a
    state with [completed < expected], [spdk_app_stop] has been called
    once if [completed + n] has reached [expected] (so by the callback
    that made the two equal, and by none after it) and not at all
    otherwise.  For [io_complete] of bdev_multicore_multi_threads.c and of
    bdev_reactor_multi_threads.c. *)
Theorem stop_exactly_once_serial :
  (∀ flags w,
     0 ≤ BdevMulticore.g_total_completed w < BdevMulticore.g_total_expected w →
     BdevMulticore.g_total_completed w + Z.of_nat (length flags) < 2 ^ 64 →
     let w' := BdevMulticore.completions flags w in
     BdevMulticore.g_total_completed w' =
       BdevMulticore.g_total_completed w + Z.of_nat (length flags) ∧
     count is_stop (BdevMulticore.trace w') =
       (count is_stop (BdevMulticore.trace w) +
        if decide (BdevMulticore.g_total_expected w
                   ≤ BdevMulticore.g_total_completed w
                     + Z.of_nat (length flags))%Z
        then 1 else 0)%nat) ∧
  (∀ args w,
     0 ≤ BdevReactor.g_total_completed w < BdevReactor.g_total_expected w →
     BdevReactor.g_total_completed w + Z.of_nat (length args) < 2 ^ 64 →
     let w' := BdevReactor.completions args w in
     BdevReactor.g_total_completed w' =
       BdevReactor.g_total_completed w + Z.of_nat (length args) ∧
     count is_stop (BdevReactor.trace w') =
       (count is_stop (BdevReactor.trace w) +
        if decide (BdevReactor.g_total_expected w
                   ≤ BdevReactor.g_total_completed w
                     + Z.of_nat (length args))%Z
        then 1 else 0)%nat).
Proof.
  split.
  - intros flags w Hc Hn.
    destruct (multicore_stop_once flags w Hc Hn) as (_ & H1 & H2).
    cbv zeta. split; [exact H1 | exact H2].
  - intros args w Hc Hn.
    destruct (reactor_stop_once args w Hc Hn) as (_ & H1 & H2).
    cbv zeta. split; [exact H1 | exact H2].
Qed.

(** Three callbacks one after the other from 14 of 16: the second one
    stops the application, the third does not. *)
Lemma stop_exactly_once_serial_witness :
  let w := BdevMulticore.shared BdevMulticore.two_left in
  count is_stop
    (BdevMulticore.trace (BdevMulticore.completions [true; true] w)) = 1%nat ∧
  count is_stop
    (BdevMulticore.trace (BdevMulticore.completions [true; true; true] w))
    = 1%nat.
Proof.
  destruct stop_exactly_once_serial as [H _]. cbv zeta. split.
  - destruct (H [true; true] (BdevMulticore.shared BdevMulticore.two_left))
      as [_ H2]; [vm_compute; split; [discriminate | reflexivity]
                 | vm_compute; reflexivity |].
    cbv zeta in H2. rewrite H2. vm_compute. reflexivity.
  - destruct (H [true; true; true] (BdevMulticore.shared BdevMulticore.two_left))
      as [_ H2]; [vm_compute; split; [discriminate | reflexivity]
                 | vm_compute; reflexivity |].
    cbv zeta in H2. rewrite H2. vm_compute. reflexivity.
Defined.

(** With the increment done by [__atomic_fetch_add], as in
    bdev_reactor_multi_threads.c, no schedule loses a completion: the
    counter and the reads still held always add up to the same number. *)
Lemma atomic_counts_every_callback sched s :
  let s' := BdevMulticore.interleave_atomic s sched in
  0 ≤ BdevMulticore.g_total_completed (BdevMulticore.shared s) →
  BdevMulticore.g_total_completed (BdevMulticore.shared s)
    + Z.of_nat (length (BdevMulticore.inflight (BdevMulticore.shared s)))
    < 2 ^ 64 →
  BdevMulticore.g_total_completed (BdevMulticore.shared s')
    + Z.of_nat (length (BdevMulticore.inflight (BdevMulticore.shared s')))
  = BdevMulticore.g_total_completed (BdevMulticore.shared s)
    + Z.of_nat (length (BdevMulticore.inflight (BdevMulticore.shared s))).
Proof.
  unfold BdevMulticore.interleave_atomic. cbv zeta.
  revert s. induction sched as [|r sched IH]; intros s H0 Hlt; [done|].
  cbn [foldl].
  assert (Hstep :
    0 ≤ BdevMulticore.g_total_completed
          (BdevMulticore.shared (BdevMulticore.micro_step_atomic s r)) ∧
    BdevMulticore.g_total_completed
      (BdevMulticore.shared (BdevMulticore.micro_step_atomic s r))
    + Z.of_nat (length (BdevMulticore.inflight
         (BdevMulticore.shared (BdevMulticore.micro_step_atomic s r))))
    = BdevMulticore.g_total_completed (BdevMulticore.shared s)
      + Z.of_nat (length (BdevMulticore.inflight (BdevMulticore.shared s)))).
  { unfold BdevMulticore.micro_step_atomic.
    destruct (BdevMulticore.regs s !! r) as [[| |]|]; simpl; try lia.
    - destruct (list_find _ _) as [[k rq]|] eqn:Hf; simpl; [|lia].
      apply list_find_Some in Hf as (Hk & _).
      pose proof (length_delete _ k (mk_is_Some _ _ Hk)) as Hdel.
      apply lookup_lt_Some in Hk.
      rewrite u64_small, Hdel by lia. lia.
    - unfold BdevMulticore.stop_if_done. case_decide; simpl; lia. }
  destruct Hstep as [H0' Heq]. rewrite IH; [exact Heq | exact H0' | lia].
Qed.

End shutdown_trigger.

(** ** Heap discipline of a trace *)

Section heap_discipline.

Lemma live_blocks_snoc tr e :
  live_blocks (tr ++ [e]) = heap_step (live_blocks tr) e.
Proof. by rewrite live_blocks_app. Qed.

Lemma frees_of_snoc b tr e :
  frees_of b (tr ++ [e]) =
  (frees_of b tr + if bool_decide (e = EDmaFree b ∨ e = EFree b) then 1 else 0)%nat.
Proof. unfold frees_of. by rewrite count_snoc. Qed.

Lemma elem_of_release (l : list nat) b x :
  NoDup l → x ∈ release b l ↔ x ∈ l ∧ x ≠ b.
Proof.
  induction 1 as [|y l Hy Hl IH]; simpl.
  - split; [intros H; by apply not_elem_of_nil in H | intros [H _]; done].
  - destruct (decide (y = b)) as [->|Hne].
    + rewrite elem_of_cons. split.
      * intros Hx. split; [by right|]. intros ->. done.
      * intros [[->|Hx] Hxb]; done.
    + rewrite !elem_of_cons, IH. split.
      * intros [->|[Hx Hxb]]; [split; [by left|done] | split; [by right|done]].
      * intros [[->|Hx] Hxb]; [by left | right; done].
Qed.

Lemma NoDup_release (l : list nat) b : NoDup l → NoDup (release b l).
Proof.
  induction 1 as [|y l Hy Hl IH]; simpl; [constructor|].
  destruct (decide (y = b)); [done|].
  constructor; [|done]. intros H. apply elem_of_release in H as [H _]; done.
Qed.

Lemma release_perm (l : list nat) b : b ∈ l → b :: release b l ≡ₚ l.
Proof.
  induction l as [|y l IH]; intros Hb.
  - by apply not_elem_of_nil in Hb.
  - simpl. destruct (decide (y = b)) as [->|Hne]; [done|].
    apply elem_of_cons in Hb as [->|Hb]; [done|].
    rewrite Permutation_swap. by rewrite IH.
Qed.

Lemma heap_inv_alloc n tr e :
  (∃ size, e = EDmaAlloc size (Some n)) ∨ e = ECalloc (Some n) →
  heap_inv n tr → heap_inv (S n) (tr ++ [e]).
Proof.
  intros He (Hnd & Hlt & Hfr).
  assert (Hlive : live_blocks (tr ++ [e]) = n :: live_blocks tr).
  { rewrite live_blocks_snoc. by destruct He as [[size ->] | ->]. }
  assert (Hn : n ∉ live_blocks tr) by (intros H; apply Hlt in H; lia).
  unfold heap_inv. rewrite Hlive. split; [by constructor|]. split.
  - intros b Hb. apply elem_of_cons in Hb as [->|Hb]; [lia|].
    apply Hlt in Hb. lia.
  - intros b. rewrite frees_of_snoc, Hfr.
    rewrite bool_decide_eq_false_2
      by (destruct He as [[size ->] | ->]; intros [?|?]; discriminate).
    rewrite Nat.add_0_r. destruct (decide (b = n)) as [->|Hbn].
    + rewrite !decide_False; [done | |]; intros [H1 H2]; [|lia].
      apply H2. by left.
    + destruct (decide (b ∈ live_blocks tr)) as [Hin|Hin].
      * rewrite !decide_False; [done | |]; intros [_ H2]; [|done].
        apply H2. by right.
      * destruct (decide (b < n)%nat).
        -- rewrite !decide_True; [done | |]; (split; [lia|]); [|done].
           intros H. apply elem_of_cons in H as [?|?]; done.
        -- rewrite !decide_False; [done | |]; intros [? _]; lia.
Qed.

Lemma heap_inv_free n tr e b :
  e = EDmaFree b ∨ e = EFree b → b ∈ live_blocks tr →
  heap_inv n tr → heap_inv n (tr ++ [e]).
Proof.
  intros He Hb (Hnd & Hlt & Hfr).
  assert (Hlive : live_blocks (tr ++ [e]) = release b (live_blocks tr)).
  { rewrite live_blocks_snoc. by destruct He as [-> | ->]. }
  unfold heap_inv. rewrite Hlive. split; [by apply NoDup_release|]. split.
  - intros x Hx. apply elem_of_release in Hx as [Hx _]; [|done]. by apply Hlt.
  - intros x. rewrite frees_of_snoc, Hfr. destruct (decide (x = b)) as [->|Hxb].
    + rewrite bool_decide_eq_true_2 by (destruct He as [-> | ->]; auto).
      rewrite decide_False by (intros [_ H]; done).
      rewrite decide_True; [done|]. split; [by apply Hlt|].
      intros H. apply elem_of_release in H as [_ H]; done.
    + rewrite bool_decide_eq_false_2
        by (destruct He as [-> | ->]; intros [?|?]; congruence).
      rewrite Nat.add_0_r.
      destruct (decide (x ∈ live_blocks tr)) as [Hin|Hin].
      * rewrite !decide_False; [done | |]; intros [_ H2]; [|done].
        apply H2. by apply elem_of_release.
      * destruct (decide (x < n)%nat).
        -- rewrite !decide_True; [done | |]; (split; [lia|]); [|done].
           intros H. apply elem_of_release in H as [? _]; done.
        -- rewrite !decide_False; [done | |]; intros [? _]; lia.
Qed.

Lemma heap_inv_other n tr e :
  (∀ l, heap_step l e = l) → is_free e = false →
  heap_inv n tr → heap_inv n (tr ++ [e]).
Proof.
  intros Hs Hf (Hnd & Hlt & Hfr).
  unfold heap_inv. rewrite live_blocks_snoc, Hs.
  split; [done|]. split; [done|].
  intros b. rewrite frees_of_snoc, Hfr.
  rewrite bool_decide_eq_false_2; [lia|].
  intros [-> | ->]; discriminate.
Qed.

End heap_discipline.

(** ** Heap blocks of bdev_reactor_multi_threads.c in every run *)

Section reactor_heap.
Import BdevReactor.

Lemma blocks_of_delete (l : list (addr * io_task)) k p task :
  l !! k = Some (p, task) →
  blocks_of l ≡ₚ p :: buf task :: blocks_of (delete k l).
Proof.
  revert k. induction l as [|x l IH]; intros [|k] Hk; try discriminate.
  - injection Hk as ->. reflexivity.
  - change (delete (S k) (x :: l)) with (x :: delete k l).
    change ((x :: l) !! S k) with (l !! k) in Hk.
    unfold blocks_of in *. rewrite !bind_cons, (IH k Hk).
    apply (Permutation_app_swap_app [x.1; buf x.2] [p; buf task]).
Qed.

Lemma hinv_submit_one_io bsz a t lba num_blocks w :
  hinv w → hinv (submit_one_io bsz a t lba num_blocks w).
Proof.
  intros [Hh Hp]. unfold submit_one_io, hinv.
  destruct (calloc_ok a).
  - destruct (zmalloc_ok a).
    + destruct (decide (read_rc a = 0)); simpl.
      * split.
        -- apply heap_inv_other; [done|done|].
           apply heap_inv_other; [done|done|].
           apply heap_inv_alloc; [left; eauto|].
           apply heap_inv_alloc; [by right|]. done.
        -- rewrite !live_blocks_snoc. simpl.
           unfold blocks_of. rewrite bind_app. simpl.
           fold (blocks_of (inflight w)). rewrite <- Hp.
           rewrite (Permutation_app_comm _ [_; _]). simpl. apply Permutation_swap.
      * split.
        -- apply heap_inv_free with (b := brk w);
             [by right | rewrite !live_blocks_snoc; simpl;
                         rewrite decide_True by done; by left |].
           apply heap_inv_free with (b := S (brk w));
             [by left | rewrite !live_blocks_snoc; simpl; by left |].
           apply heap_inv_other; [done|done|].
           apply heap_inv_other; [done|done|].
           apply heap_inv_alloc; [left; eauto|].
           apply heap_inv_alloc; [by right|]. done.
        -- rewrite !live_blocks_snoc. cbn [heap_step].
           rewrite !release_head. done.
    + simpl. split.
      * apply heap_inv_free with (b := brk w);
          [by right | rewrite !live_blocks_snoc; simpl; by left |].
        apply heap_inv_other; [done|done|].
        apply heap_inv_other; [done|done|].
        apply heap_inv_alloc; [by right|]. done.
      * rewrite !live_blocks_snoc. cbn [heap_step].
        rewrite !release_head. done.
  - simpl. split.
    + apply heap_inv_other; [done|done|].
      apply heap_inv_other; [done|done|]. done.
    + by rewrite !live_blocks_snoc.
Qed.

Lemma hinv_thread_work_upto n chres bsz nb ans t w :
  hinv w → hinv (thread_work_upto n chres bsz nb ans t w).
Proof.
  intros [Hh Hp]. unfold thread_work_upto.
  assert (H1 : hinv (set_g_ctx (alter (with_ch chres) t (g_ctx w))
                       (emit (EGetIoChannel chres) w))).
  { split; simpl.
    - apply heap_inv_other; [by destruct chres | done | done].
    - rewrite live_blocks_snoc. by destruct chres. }
  destruct chres as [c|].
  - assert (H2 : hinv (emit (EStdout "start on reactor core" [nb; bsz])
                    (set_g_ctx (alter (with_ch (Some c)) t (g_ctx w))
                       (emit (EGetIoChannel (Some c)) w)))).
    { destruct H1 as [H1 H1']. split; simpl.
      - apply heap_inv_other; [done | done | exact H1].
      - rewrite live_blocks_snoc. exact H1'. }
    unfold submit_loop. induction n as [|n IH]; [exact H2|].
    rewrite seq_S, foldl_app. simpl. by apply hinv_submit_one_io.
  - destruct H1 as [H1 H1']. split; simpl.
    + apply heap_inv_other; [done | done | exact H1].
    + rewrite live_blocks_snoc. exact H1'.
Qed.

Lemma hinv_io_complete k p task success w :
  inflight w !! k = Some (p, task) → hinv w →
  hinv (io_complete p task success
          (emit (ECallback success) (set_inflight (delete k (inflight w)) w))).
Proof.
  intros Hk [Hh Hp].
  pose proof (blocks_of_delete _ _ _ _ Hk) as Hbl.
  assert (Hb : buf task ∈ live_blocks (trace w)).
  { rewrite Hp, Hbl. right. by left. }
  assert (Hpin : p ∈ live_blocks (trace w)).
  { rewrite Hp, Hbl. by left. }
  assert (Hne : p ≠ buf task).
  { destruct Hh as (Hnd & _). rewrite Hp, Hbl in Hnd.
    apply NoDup_cons in Hnd as [Hnin _]. intros ->. apply Hnin. by left. }
  assert (Hp2 : p ∈ release (buf task) (live_blocks (trace w))).
  { apply elem_of_release; [by destruct Hh | done]. }
  assert (Hcore : hinv (emit (EFree p) (emit (EDmaFree (buf task))
            (emit EBdevFreeIo
               (emit (EStdout "I/O completed" [])
                  (emit (ECallback success)
                     (set_inflight (delete k (inflight w)) w))))))).
  { split; simpl.
    - apply heap_inv_free with (b := p); [by right | |].
      { by rewrite !live_blocks_snoc. }
      apply heap_inv_free with (b := buf task); [by left | |].
      { by rewrite !live_blocks_snoc. }
      apply heap_inv_other; [done|done|].
      apply heap_inv_other; [done|done|].
      apply heap_inv_other; [done|done|]. done.
    - rewrite !live_blocks_snoc. cbn [heap_step].
      apply (Permutation_cons_inv (a := buf task)).
      apply (Permutation_cons_inv (a := p)).
      rewrite <- Hbl, <- Hp.
      rewrite (Permutation_swap (buf task) p).
      rewrite (release_perm _ p Hp2). by rewrite (release_perm _ _ Hb). }
  destruct Hcore as [Hc1 Hc2]. simpl in Hc1, Hc2.
  rewrite !live_blocks_snoc in Hc2. cbn [heap_step] in Hc2.
  unfold io_complete, hinv.
  destruct (decide _); simpl.
  - split.
    + apply heap_inv_other; [done|done|].
      apply heap_inv_free with (b := p); [by right | |].
      { by rewrite !live_blocks_snoc. }
      apply heap_inv_free with (b := buf task); [by left | |].
      { by rewrite !live_blocks_snoc. }
      apply heap_inv_other; [done|done|].
      apply heap_inv_other; [done|done|].
      apply heap_inv_other; [done|done|]. done.
    + rewrite !live_blocks_snoc. cbn [heap_step]. exact Hc2.
  - split.
    + apply heap_inv_free with (b := p); [by right | |].
      { by rewrite !live_blocks_snoc. }
      apply heap_inv_free with (b := buf task); [by left | |].
      { by rewrite !live_blocks_snoc. }
      apply heap_inv_other; [done|done|].
      apply heap_inv_other; [done|done|].
      apply heap_inv_other; [done|done|]. done.
    + rewrite !live_blocks_snoc. cbn [heap_step]. exact Hc2.
Qed.

Lemma heap_inv_neutral n tr tr' :
  Forall (λ e, (∀ l, heap_step l e = l) ∧ is_free e = false) tr' →
  heap_inv n tr →
  heap_inv n (tr ++ tr') ∧ live_blocks (tr ++ tr') = live_blocks tr.
Proof.
  induction tr' as [|e tr' IH] using rev_ind; intros Hf Hh.
  - by rewrite app_nil_r.
  - apply Forall_app in Hf as [Hf He]. apply Forall_singleton in He as [He1 He2].
    destruct (IH Hf Hh) as [IH1 IH2]. rewrite app_assoc. split.
    + by apply heap_inv_other.
    + by rewrite live_blocks_snoc, He1.
Qed.

Lemma hinv_app_start rc : hinv (app_start rc initial).
Proof.
  assert (H0 : heap_inv 0 []).
  { split; [apply NoDup_nil_2|]. split.
    - intros b Hb. by apply not_elem_of_nil in Hb.
    - intros b. rewrite decide_False; [done|]. intros [? _]. lia. }
  unfold hinv, app_start. destruct (decide (rc = 0)); simpl.
  - match goal with
    | |- heap_inv _ ?tr ∧ _ =>
        destruct (heap_inv_neutral 0 [] tr) as [H1 H2]; [|exact H0|]
    end.
    + repeat constructor.
    + split; [exact H1|]. simpl in H2. by rewrite H2.
  - match goal with
    | |- heap_inv _ ?tr ∧ _ =>
        destruct (heap_inv_neutral 0 [] tr) as [H1 H2]; [|exact H0|]
    end.
    + repeat constructor.
    + split; [exact H1|]. simpl in H2. by rewrite H2.
Qed.

Lemma hinv_exec w l w' : hinv w → exec w l = Some w' → hinv w'.
Proof.
  intros Hh. destruct l as [t chres bsz nb ans | k success]; simpl.
  - destruct (decide (t ∈ inbox w)); [|done]. intros [= <-].
    by apply hinv_thread_work_upto.
  - destruct (inflight w !! k) as [[p task]|] eqn:Hk; [|done]. intros [= <-].
    by apply hinv_io_complete.
Qed.

Lemma hinv_run w ls w' : hinv w → run w ls = Some w' → hinv w'.
Proof.
  revert w. induction ls as [|l ls IH]; intros w Hh; simpl.
  - by intros [= <-].
  - destruct (exec w l) as [w1|] eqn:He; [|done].
    apply IH. by apply (hinv_exec w l).
Qed.

(** In every run the blocks that are allocated are exactly the task
    records and buffers of the reads the bdev layer holds, each once; no
    block is freed twice, and every block handed out earlier that is not
    held any more has been freed once. *)
Theorem reactor_heap_exact w :
  reachable w →
  live_blocks (trace w) ≡ₚ blocks_of (inflight w) ∧
  NoDup (live_blocks (trace w)) ∧
  ∀ b, frees_of b (trace w) =
       if decide ((b < brk w)%nat ∧ b ∉ live_blocks (trace w)) then 1%nat
       else 0%nat.
Proof.
  intros (rc & ls & Hrun).
  destruct (hinv_run _ _ _ (hinv_app_start rc) Hrun) as [(H1 & _ & H3) H2].
  done.
Qed.

Lemma reactor_heap_exact_witness :
  ∃ w, run (app_start 0 initial)
         [Deliver 0 (Some 0%nat) 4096 1000 (λ _, accept_all); Complete 3 false]
       = Some w ∧
       NoDup (live_blocks (trace w)) ∧ frees_of 6 (trace w) = 1%nat.
Proof.
  eexists. split; [vm_compute; reflexivity|].
  match goal with
  | |- NoDup (live_blocks (trace ?w)) ∧ _ =>
      destruct (reactor_heap_exact w) as (_ & H2 & H3)
  end.
  - exists 0, [Deliver 0 (Some 0%nat) 4096 1000 (λ _, accept_all);
               Complete 3 false]. vm_compute. reflexivity.
  - split; [exact H2|]. rewrite H3. vm_compute. reflexivity.
Defined.

End reactor_heap.

(** ** bdev_reactor_multi_threads.c: when the application stops *)

Section reactor_stop.
Import BdevReactor.

Lemma submit_one_io_stops bsz a t lba num_blocks w :
  count is_stop (trace (submit_one_io bsz a t lba num_blocks w))
  = count is_stop (trace w).
Proof.
  unfold submit_one_io.
  destruct (calloc_ok a), (zmalloc_ok a); simpl;
    try (rewrite !count_snoc; simpl; lia).
  destruct (decide (read_rc a = 0)); simpl; rewrite !count_snoc; simpl; lia.
Qed.

Lemma thread_work_upto_stops n chres bsz nb ans t w :
  count is_stop (trace (thread_work_upto n chres bsz nb ans t w))
  = count is_stop (trace w).
Proof.
  unfold thread_work_upto. destruct chres as [c|]; simpl.
  - unfold submit_loop. induction n as [|n IH].
    + simpl. rewrite !count_snoc. simpl. lia.
    + rewrite seq_S, foldl_app. simpl. by rewrite submit_one_io_stops.
  - rewrite !count_snoc. simpl. lia.
Qed.

Lemma thread_work_upto_completed n chres bsz nb ans t w :
  g_total_completed (thread_work_upto n chres bsz nb ans t w)
  = g_total_completed w.
Proof.
  unfold thread_work_upto. destruct chres; [|done].
  unfold submit_loop. induction n as [|n IH]; [done|].
  rewrite seq_S, foldl_app. simpl.
  match goal with
  | |- g_total_completed (submit_one_io ?b ?a ?t ?l ?k ?w0) = _ =>
      destruct (submit_one_io_effect b a t l k w0) as (_ & _ & _ & -> & _)
  end.
  exact IH.
Qed.

Lemma sys_inv_app_start : sys_inv (app_start 0 initial).
Proof.
  split; [apply inv_app_start|]. split; [done|].
  split; [apply hinv_app_start|]. vm_compute. reflexivity.
Qed.

Lemma io_complete_stops p task success w :
  0 ≤ g_total_completed w < 2 ^ 64 - 1 →
  count is_stop (trace (io_complete p task success w)) =
  (count is_stop (trace w) +
   if decide (g_total_completed w + 1 = g_total_expected w)%Z then 1 else 0)%nat.
Proof.
  intros Hc. unfold io_complete. simpl. rewrite u64_small by lia.
  destruct (decide (g_total_completed w + 1 = g_total_expected w)); simpl;
    rewrite !count_snoc; simpl; lia.
Qed.

Lemma sys_inv_exec w l w' : sys_inv w → exec w l = Some w' → sys_inv w'.
Proof.
  intros (Hinv & He & Hh & Hs) Hx.
  pose proof (inv_exec _ _ _ Hinv Hx) as Hinv'.
  pose proof (exec_expected _ _ _ Hx) as He'.
  pose proof (hinv_exec _ _ _ Hh Hx) as Hh'.
  split; [done|]. split; [congruence|]. split; [done|].
  destruct (inv_on_total full _ _ _ _ (λ _, Z.le_refl _) Hinv) as (Hc0 & Hc1 & Hc2).
  destruct (inv_on_total full _ _ _ _ (λ _, Z.le_refl _) Hinv')
    as (Hc0' & Hc1' & Hc2').
  assert (Hcap : Z.of_nat THREADS_PER_REACTOR * Z.of_nat IO_PER_THREAD = 24)
    by reflexivity.
  rewrite Hcap in Hc2, Hc2'. clear Hinv Hinv' Hh Hh' He'.
  destruct l as [t chres bsz nb ans | k success]; simpl in Hx.
  - destruct (decide (t ∈ inbox w)); [|done]. injection Hx as <-.
    unfold thread_work.
    rewrite thread_work_upto_stops, thread_work_upto_completed. exact Hs.
  - destruct (inflight w !! k) as [[p task]|] eqn:Hk; [|done]. injection Hx as <-.
    match goal with
    | |- context [io_complete ?p ?t ?s ?w0] =>
        destruct (io_complete_effect p t s w0) as (_ & Hgc & _);
        pose proof (io_complete_stops p t s w0) as Hst;
        set (w1 := io_complete p t s w0) in *
    end.
    change (g_total_completed w1 = u64 (g_total_completed w + 1)) in Hgc.
    change (0 ≤ g_total_completed w < 2 ^ 64 - 1 →
            count is_stop (trace w1) =
            (count is_stop (trace w ++ [ECallback success]) +
             if decide (g_total_completed w + 1 = g_total_expected w)%Z
             then 1 else 0)%nat) in Hst.
    rewrite u64_small in Hgc by lia.
    rewrite Hst, count_snoc, Hs, Hgc, He by lia. simpl.
    rewrite (decide_False (P := g_total_completed w = 24)) by lia.
    done.
Qed.

Lemma sys_inv_run w ls w' : sys_inv w → run w ls = Some w' → sys_inv w'.
Proof.
  revert w. induction ls as [|l ls IH]; intros w Hinv; simpl.
  - by intros [= <-].
  - destruct (exec w l) as [w1|] eqn:He; [|done].
    apply IH. by apply (sys_inv_exec w l).
Qed.



Lemma run_app w ls1 ls2 :
  run w (ls1 ++ ls2) =
  match run w ls1 with Some w1 => run w1 ls2 | None => None end.
Proof.
  revert w. induction ls1 as [|l ls1 IH]; intros w; simpl; [done|].
  destruct (exec w l); [apply IH | done].
Qed.

(** Once no message waits, only completions run: the submitted counters
    stay as they are. *)
Lemma run_no_inbox w ls w' :
  inbox w = [] → run w ls = Some w' →
  inbox w' = [] ∧ total_submitted w' = total_submitted w.
Proof.
  revert w. induction ls as [|l ls IH]; intros w Hb; simpl.
  - by intros [= <-].
  - destruct l as [t chres bsz nb ans | k success]; simpl.
    + rewrite Hb. rewrite decide_False by apply not_elem_of_nil. done.
    + destruct (inflight w !! k) as [[p task]|]; [|done]. intros Hr.
      apply IH in Hr.
      * destruct Hr as [-> ->]. split; [done|].
        unfold total_submitted.
        match goal with
        | |- context [io_complete ?p ?t ?s ?w0] =>
            destruct (io_complete_effect p t s w0) as (-> & _)
        end.
        simpl. by apply (sumf_alter_same submitted).
      * match goal with
        | |- context [io_complete ?p ?t ?s ?w0] =>
            destruct (io_complete_effect p t s w0) as (_ & _ & _ & _ & ->)
        end.
        exact Hb.
Qed.

(** A submission that failed is never made up for: once every thread has
    run [thread_work] with fewer than 24 reads accepted in all, the
    completed counter never reaches the expected total and
    [spdk_app_stop] is never called, however the run goes on. *)
Theorem reactor_short_never_stops ls w ls' w' :
  run (app_start 0 initial) ls = Some w →
  inbox w = [] → total_submitted w < 24 →
  run w ls' = Some w' →
  g_total_completed w' < 24 ∧ count is_stop (trace w') = 0%nat.
Proof.
  intros Hrun Hb Hlt Hrun'.
  assert (Hall : run (app_start 0 initial) (ls ++ ls') = Some w')
    by (by rewrite run_app, Hrun).
  destruct (sys_inv_run _ _ _ sys_inv_app_start Hall) as (Hinv & _ & _ & Hs).
  destruct (inv_on_total full _ _ _ _ (λ _, Z.le_refl _) Hinv) as (_ & Hc & _).
  destruct (run_no_inbox _ _ _ Hb Hrun') as [_ Hsub].
  change (sumf submitted (g_ctx w')) with (total_submitted w') in Hc.
  rewrite Hsub in Hc.
  split; [lia|]. rewrite Hs, decide_False by lia. done.
Qed.

(** Thread 0 cannot get a channel; the other 16 reads all complete. *)
Lemma reactor_short_never_stops_witness :
  ∃ w w',
    run (app_start 0 initial)
      [Deliver 0 None 4096 1000 (λ _, accept_all);
       Deliver 1 (Some 1%nat) 4096 1000 (λ _, accept_all);
       Deliver 2 (Some 2%nat) 4096 1000 (λ _, accept_all)] = Some w ∧
    run w (replicate 16 (Complete 0 true)) = Some w' ∧
    inflight w' = [] ∧ count is_stop (trace w') = 0%nat.
Proof.
  eexists _, _. split; [vm_compute; reflexivity|].
  split; [vm_compute; reflexivity|]. split; [vm_compute; reflexivity|].
  eapply (reactor_short_never_stops
            [Deliver 0 None 4096 1000 (λ _, accept_all);
             Deliver 1 (Some 1%nat) 4096 1000 (λ _, accept_all);
             Deliver 2 (Some 2%nat) 4096 1000 (λ _, accept_all)]
            _ (replicate 16 (Complete 0 true))).
  - vm_compute. reflexivity.
  - vm_compute. reflexivity.
  - vm_compute. reflexivity.
  - vm_compute. reflexivity.
Defined.

End reactor_stop.

(** ** bdev_reactor_multi_threads.c: where the reads go *)

Section reactor_range.
Import BdevReactor.

Lemma submit_one_io_in_range bsz nb a t lba w :
  0 ≤ bsz < 2 ^ 32 → 0 ≤ lba < nb → lba * bsz < 2 ^ 64 →
  Forall (read_in_range bsz nb) (trace w) →
  Forall (read_in_range bsz nb) (trace (submit_one_io bsz a t lba 1 w)).
Proof.
  intros Hb Hl Hm Hw.
  assert (Hr : ∀ c b rc, read_in_range bsz nb
                 (EBdevRead c b (u64 (lba * bsz)) (u32 (bsz * 1)) rc)).
  { intros c b rc. exists lba. split; [done|]. split.
    - apply u64_small. nia.
    - unfold u32. rewrite Z.mul_1_r. by apply Z.mod_small. }
  unfold submit_one_io.
  destruct (calloc_ok a), (zmalloc_ok a); simpl;
    try (repeat (apply Forall_app; split; [|by repeat constructor]); done).
  destruct (decide (read_rc a = 0)); simpl;
    repeat (apply Forall_app; split; [|repeat constructor; done || apply Hr]);
    done.
Qed.

(** Every read [thread_work] issues lies inside the device: on a device of
    [nb > 0] blocks of [bsz] bytes it starts at block [i mod nb], on a
    block boundary, and is one block long. *)
Theorem thread_work_reads_in_range n chres bsz nb ans t w :
  (n ≤ IO_PER_THREAD)%nat → 0 < nb < 2 ^ 64 → 0 ≤ bsz < 2 ^ 32 →
  Forall (read_in_range bsz nb) (trace w) →
  Forall (read_in_range bsz nb)
    (trace (thread_work_upto n chres bsz nb ans t w)).
Proof.
  intros Hn Hnb Hb Hw. unfold thread_work_upto.
  destruct chres as [c|]; simpl.
  2:{ repeat (apply Forall_app; split; [|by repeat constructor]). done. }
  unfold submit_loop. induction n as [|n IH].
  { simpl. repeat (apply Forall_app; split; [|by repeat constructor]). done. }
  rewrite seq_S, foldl_app. simpl.
  rewrite decide_False by lia.
  assert (Hmod : 0 ≤ Z.of_nat n `mod` nb < nb) by (apply Z.mod_pos_bound; lia).
  assert (Hle : Z.of_nat n `mod` nb ≤ Z.of_nat n)
    by (apply Z.mod_le; lia).
  unfold IO_PER_THREAD in Hn.
  rewrite (u64_small (Z.of_nat n `mod` nb)) by lia.
  apply submit_one_io_in_range; try done; [nia|].
  assert (Hn' : (n ≤ IO_PER_THREAD)%nat) by (unfold IO_PER_THREAD; lia).
  specialize (IH Hn'). rewrite decide_False in IH by lia. exact IH.
Qed.

Lemma thread_work_reads_in_range_witness :
  Forall (read_in_range 4096 1000)
    (trace (thread_work (Some 0%nat) 4096 1000 (λ _, accept_all) 0
              (app_start 0 initial))).
Proof.
  apply (thread_work_reads_in_range IO_PER_THREAD); try lia.
  vm_compute. repeat constructor.
Defined.

End reactor_range.

(** ** bdev_nvme.c: how [main] ends *)

Section bdev_nvme_exit.
Import BdevNvme.

(** With one read outstanding the wait loop is left exactly when some poll
    delivers its completion, with either status. *)
Lemma wait_loop_left ps w b :
  outstanding w = [b] → io_submitted (ctx w) = 1 → io_completed (ctx w) = 0 →
  (wait_loop ps w).1 = true ↔ ∃ s, Some s ∈ ps.
Proof.
  revert w. induction ps as [|o ps IH]; intros w Ho Hs Hc; simpl;
    rewrite Hs, Hc; simpl.
  { split; [done|]. intros [s H]. by apply not_elem_of_nil in H. }
  destruct o as [success|].
  - unfold spdk_bdev_poll. simpl. rewrite Ho.
    rewrite wait_loop_idle.
    2:{ destruct success; simpl; rewrite Hs, Hc; vm_compute; discriminate. }
    split; [|done]. intros _. exists success. by left.
  - unfold spdk_bdev_poll. simpl. rewrite IH by done. split.
    + intros [s H]. exists s. by right.
    + intros [s H]. exists s. apply elem_of_cons in H as [H|H]; [done|exact H].
Qed.

Lemma start_fails_dec e : start_fails e ∨ ∃ c,
  ¬ env_init_rc e < 0 ∧ bdev_found e = true ∧ open_rc e = 0
  ∧ io_channel e = Some c.
Proof.
  unfold start_fails.
  destruct (decide (env_init_rc e < 0)); [by left; left|].
  destruct (bdev_found e) eqn:?; [|by left; right; left].
  destruct (decide (open_rc e = 0)); [|by left; right; right; left].
  destruct (io_channel e) as [c|] eqn:?; [|by left; right; right; right].
  right. by exists c.
Qed.

Lemma main_start_fails e :
  start_fails e → (main e).1 = Some (-1).
Proof.
  intros Hf. unfold main.
  destruct (Z.ltb_spec (env_init_rc e) 0) as [Hi|Hi]; [done|].
  destruct (bdev_found e) eqn:Hb; simpl; [|done].
  destruct (bool_decide (open_rc e = 0)) eqn:Ho; simpl; [|done].
  apply bool_decide_eq_true in Ho.
  destruct (io_channel e) as [c|] eqn:Hc; [|done].
  destruct Hf as [?|[?|[?|?]]]; (lia || congruence).
Qed.

(** The exit status of [main] in terms of what the library answers: -1
    exactly when the start fails; 0 exactly when the start succeeds and
    either the submission fails or some poll delivers the completion, with
    success or not; and [main] is still in its wait loop after all polls
    exactly when the read was accepted and no poll completed it. *)
Theorem main_exit_status e :
  ((main e).1 = Some (-1) ↔ start_fails e) ∧
  ((main e).1 = Some 0 ↔
     ¬ start_fails e ∧ (¬ accepted e ∨ ∃ s, Some s ∈ polls e)) ∧
  ((main e).1 = None ↔
     ¬ start_fails e ∧ accepted e ∧ ¬ ∃ s, Some s ∈ polls e).
Proof.
  destruct (start_fails_dec e) as [Hf | (c & Hi & Hb & Ho & Hc)].
  { rewrite (main_start_fails e Hf). repeat split; try done; intros [? _]; done. }
  assert (Hnf : ¬ start_fails e).
  { intros [?|[?|[?|?]]]; (lia || congruence). }
  rewrite (main_started e c Hi Hb Ho Hc). cbv zeta.
  match goal with
  | |- context [wait_loop _ (submit_bdev_io ?a ?b ?w0)] =>
      pose proof (submit_bdev_io_cases a b w0 eq_refl eq_refl eq_refl) as H;
      cbv zeta in H; set (w1 := submit_bdev_io a b w0) in *
  end.
  destruct H as (_ & Hcompl & _ & Hcase).
  destruct Hcase as [(Hsub & b & Hout & Hm & Hr) | (Hsub & Hout & Hfail)].
  - assert (Hacc : accepted e) by (split; [rewrite Hm; eauto | done]).
    pose proof (wait_loop_left (polls e) w1 b Hout Hsub Hcompl) as Hl.
    destruct (wait_loop (polls e) w1) as [[|] w2]; simpl in Hl |- *.
    + assert (Hs : ∃ s, Some s ∈ polls e) by (by apply Hl).
      repeat split; try done; auto. intros (_ & _ & Hn). done.
    + assert (Hs : ¬ ∃ s, Some s ∈ polls e)
        by (intros H; apply Hl in H; done).
      repeat split; try done. intros (_ & [Hn|Hn]); done.
  - assert (Hacc : ¬ accepted e).
    { intros [[b Hb'] Hr]. destruct Hfail; congruence. }
    rewrite wait_loop_idle by lia. simpl.
    repeat split; try done; auto. intros (_ & Ha & _). done.
Qed.

(** When the start fails [main] returns -1 having issued no read, made no
    poll and allocated nothing, and it releases nothing: if it is the I/O
    channel that cannot be obtained, the descriptor it has opened stays
    open. *)
Theorem main_failed_start e :
  start_fails e →
  (main e).1 = Some (-1) ∧
  count is_read (trace (main e).2) = 0%nat ∧
  count is_poll (trace (main e).2) = 0%nat ∧
  count is_dma_alloc (trace (main e).2) = 0%nat ∧
  count is_release (trace (main e).2) = 0%nat ∧
  count is_stderr (trace (main e).2) = 1%nat ∧
  handles_after no_handles (trace (main e).2) =
    Some {| desc_open := bool_decide (¬ env_init_rc e < 0 ∧ bdev_found e = true
                                      ∧ open_rc e = 0);
            chans := [] |}.
Proof.
  intros Hf. split; [by apply main_start_fails|]. unfold main.
  destruct (Z.ltb_spec (env_init_rc e) 0) as [Hi|Hi].
  { simpl. rewrite bool_decide_eq_false_2 by (intros [? _]; lia). done. }
  destruct (bdev_found e) eqn:Hb; simpl.
  2:{ rewrite bool_decide_eq_false_2 by (intros (_ & ? & _); done). done. }
  destruct (bool_decide (open_rc e = 0)) eqn:Ho; simpl.
  2:{ apply bool_decide_eq_false in Ho.
      rewrite bool_decide_eq_false_2 by (intros (_ & _ & ?); done).
      rewrite decide_False by done. done. }
  apply bool_decide_eq_true in Ho.
  destruct (io_channel e) as [c|] eqn:Hc.
  { destruct Hf as [?|[?|[?|?]]]; (lia || congruence). }
  simpl. rewrite bool_decide_eq_true_2 by (split; [lia | split; done]).
  rewrite decide_True by done. done.
Qed.

(** The descriptor opens, the channel does not. *)
Lemma main_failed_start_witness :
  let e := {| env_init_rc := 0; bdev_found := true; open_rc := 0;
              io_channel := None; malloc_res := Some 0%nat;
              read_rc := 0; polls := [] |} in
  (main e).1 = Some (-1) ∧
  handles_after no_handles (trace (main e).2) =
    Some {| desc_open := true; chans := [] |}.
Proof.
  cbv zeta.
  destruct (main_failed_start
              {| env_init_rc := 0; bdev_found := true; open_rc := 0;
                 io_channel := None; malloc_res := Some 0%nat;
                 read_rc := 0; polls := [] |})
    as (H1 & _ & _ & _ & _ & _ & H7).
  - right. right. right. reflexivity.
  - split; [exact H1 | exact H7].
Defined.

End bdev_nvme_exit.

(** ** bdev_nvme_multi.c: the counters of a reactor *)

Section bdev_nvme_multi_accounting.
Import BdevNvmeMulti.





End bdev_nvme_multi_accounting.

(** ** bdev_multicore_multi_threads.c: every serial run *)

Section multicore_runs.
Import BdevMulticore.

Lemma submit_rounds_any bsz ans t (idx : list nat) w :
  let w' := foldl (λ w i,
             let a := ans i in
             let '(buf, w) :=
               if zmalloc_ok a
               then (Some (brk w),
                     emit (EDmaAlloc bsz (Some (brk w))) (set_brk (S (brk w)) w))
               else (None, emit (EDmaAlloc bsz None) w) in
             let c := g_ctx w !! t ≫= ch in
             let w := emit (EBdevRead c buf (Z.of_nat i) 1 (read_rc a)) w in
             if decide (read_rc a = 0)
             then set_inflight (inflight w ++ [(c, buf)]) w
             else w) w idx in
  g_total_expected w' = g_total_expected w ∧
  g_total_completed w' = g_total_completed w ∧
  inbox w' = inbox w ∧
  (length (inflight w') + count is_refused (trace w')
   = length (inflight w) + count is_refused (trace w) + length idx)%nat ∧
  count is_read (trace w') = (count is_read (trace w) + length idx)%nat ∧
  count is_stop (trace w') = count is_stop (trace w) ∧
  count is_free (trace w') = count is_free (trace w) ∧
  count is_release (trace w') = count is_release (trace w) ∧
  (length (live_blocks (trace w')) + count is_dma_alloc (trace w)
   = length (live_blocks (trace w)) + count is_dma_alloc (trace w'))%nat ∧
  (count is_refused (trace w) ≤ count is_refused (trace w'))%nat.
Proof.
  match goal with |- context [foldl ?f w idx] => set (F := f) end.
  cbv zeta. revert w. induction idx as [|i idx IH]; intros w.
  { simpl. repeat split; lia. }
  cbn [foldl]. set (ws := F w i).
  assert (Hstep :
    g_total_expected ws = g_total_expected w ∧
    g_total_completed ws = g_total_completed w ∧
    inbox ws = inbox w ∧
    (length (inflight ws) + count is_refused (trace ws)
     = length (inflight w) + count is_refused (trace w) + 1)%nat ∧
    count is_read (trace ws) = (count is_read (trace w) + 1)%nat ∧
    count is_stop (trace ws) = count is_stop (trace w) ∧
    count is_free (trace ws) = count is_free (trace w) ∧
    count is_release (trace ws) = count is_release (trace w) ∧
    (length (live_blocks (trace ws)) + count is_dma_alloc (trace w)
     = length (live_blocks (trace w)) + count is_dma_alloc (trace ws))%nat ∧
    (count is_refused (trace w) ≤ count is_refused (trace ws))%nat).
  { subst ws F. cbv beta zeta.
    destruct (zmalloc_ok (ans i)), (decide (read_rc (ans i) = 0)) as [E|E];
      cbn [fst snd g_total_expected g_total_completed inbox inflight trace
           emit set_brk set_inflight];
      rewrite ?length_app, ?live_blocks_snoc, !count_snoc;
      cbn [heap_step is_read is_stop is_free is_release is_dma_alloc
           is_refused length];
      (destruct (Z.eqb_spec (read_rc (ans i)) 0); [|try done]; try done);
      cbn [negb]; repeat split; try reflexivity; lia. }
  clearbody ws.
  destruct Hstep as (S1 & S2 & S3 & S4 & S5 & S6 & S7 & S8 & S9 & S10).
  destruct (IH ws) as (H1 & H2 & H3 & H4 & H5 & H6 & H7 & H8 & H9 & H10).
  simpl length. rewrite H1, H2, H3. repeat split; (done || lia).
Qed.

Lemma thread_work_any chres bsz ans t w :
  let w' := thread_work chres bsz ans t w in
  g_total_expected w' = g_total_expected w ∧
  g_total_completed w' = g_total_completed w ∧
  inbox w' = inbox w ∧
  (length (inflight w') + count is_refused (trace w')
   = length (inflight w) + count is_refused (trace w) + 4)%nat ∧
  count is_read (trace w') = (count is_read (trace w) + 4)%nat ∧
  count is_stop (trace w') = count is_stop (trace w) ∧
  count is_free (trace w') = count is_free (trace w) ∧
  count is_release (trace w') = count is_release (trace w) ∧
  (length (live_blocks (trace w')) + count is_dma_alloc (trace w)
   = length (live_blocks (trace w)) + count is_dma_alloc (trace w'))%nat.
Proof.
  cbv zeta. unfold thread_work.
  set (w1 := set_g_ctx _ (emit (EGetIoChannel chres) w)).
  pose proof (submit_rounds_any bsz ans t (seq 0 IO_PER_THREAD) w1) as H.
  cbv zeta in H.
  change (foldl _ w1 (seq 0 IO_PER_THREAD)) with (submit_io bsz ans t w1) in H.
  destruct H as (H1 & H2 & H3 & H4 & H5 & H6 & H7 & H8 & H9 & _).
  rewrite length_seq in H4, H5. unfold IO_PER_THREAD in H4, H5.
  assert (E1 : count is_refused (trace w1) = count is_refused (trace w))
    by (subst w1; simpl; rewrite count_snoc; simpl; lia).
  assert (E2 : count is_read (trace w1) = count is_read (trace w))
    by (subst w1; simpl; rewrite count_snoc; simpl; lia).
  assert (E3 : count is_stop (trace w1) = count is_stop (trace w))
    by (subst w1; simpl; rewrite count_snoc; simpl; lia).
  assert (E4 : count is_free (trace w1) = count is_free (trace w))
    by (subst w1; simpl; rewrite count_snoc; simpl; lia).
  assert (E5 : count is_release (trace w1) = count is_release (trace w))
    by (subst w1; simpl; rewrite count_snoc; simpl; lia).
  assert (E6 : count is_dma_alloc (trace w1) = count is_dma_alloc (trace w))
    by (subst w1; simpl; rewrite count_snoc; simpl; lia).
  assert (E7 : live_blocks (trace w1) = live_blocks (trace w))
    by (subst w1; simpl; by rewrite live_blocks_snoc).
  assert (E8 : inflight w1 = inflight w) by done.
  assert (E9 : inbox w1 = inbox w) by done.
  assert (E10 : g_total_expected w1 = g_total_expected w) by done.
  assert (E11 : g_total_completed w1 = g_total_completed w) by done.
  rewrite H1, H2, H3, H5, H6, H7, H8, E2, E3, E4, E5, E9, E10, E11.
  rewrite E1, E8 in H4. rewrite E6, E7 in H9.
  clearbody w1. repeat split; lia.
Qed.

Lemma minv_app_start : minv (app_start 0 initial).
Proof.
  unfold minv. simpl. repeat split; try done.
  apply (bool_decide_unpack (NoDup _)). vm_compute. exact I.
Qed.

Lemma minv_exec w l w' : minv w → exec w l = Some w' → minv w'.
Proof.
  intros (He & Hc0 & Hnd & Hsum & Hrd & Hst & Hfr & Hrl & Hlv).
  destruct l as [t chres bsz ans | k success]; simpl.
  - destruct (decide (t ∈ inbox w)) as [Hin|]; [|done]. intros [= <-].
    pose proof (filter_ne_length _ _ Hnd Hin) as Hlen.
    pose proof (thread_work_any chres bsz ans t
                  (set_inbox (filter (λ i, i ≠ t) (inbox w)) w)) as H.
    cbv zeta in H. destruct H as (H1 & H2 & H3 & H4 & H5 & H6 & H7 & H8 & H9).
    unfold minv. rewrite H1, H2, H3, H5, H6, H7, H8.
    set (w2 := thread_work _ _ _ _ _) in *. clearbody w2.
    simpl in *.
    split; [done|]. split; [done|]. split; [by apply NoDup_filter|].
    split; [lia|]. split; [lia|]. split; [done|]. split; [done|].
    split; [done|]. lia.
  - destruct (inflight w !! k) as [rq|] eqn:Hk; [|done]. intros [= <-].
    pose proof (length_delete (inflight w) k (mk_is_Some _ _ Hk)) as Hdel.
    assert (0 < length (inflight w))%nat
      by (apply lookup_lt_Some in Hk; lia).
    assert (Hu : u64 (g_total_completed w + 1) = g_total_completed w + 1)
      by (apply u64_small; lia).
    unfold minv, io_complete, stop_if_done. simpl.
    rewrite Hu, He. rewrite decide_False in Hst by lia.
    destruct (decide (g_total_completed w + 1 = 16)) as [H16|H16]; simpl;
      rewrite Hdel, ?live_blocks_snoc, !count_snoc; simpl;
      rewrite ?Nat.add_0_r, Hst, Hfr, Hrl;
      repeat split; try done; try lia; case_decide; (done || lia).
Qed.

Lemma minv_run w ls w' : minv w → run w ls = Some w' → minv w'.
Proof.
  revert w. induction ls as [|l ls IH]; intros w Hinv; simpl.
  - by intros [= <-].
  - destruct (exec w l) as [w1|] eqn:He; [|done].
    apply IH. by apply (minv_exec w l).
Qed.





(** No run frees a buffer, puts back a channel or closes the descriptor:
    every buffer allocated stays allocated.  A thread that has run
    [thread_work] has issued its 4 reads whatever the allocator and the
    bdev layer answered (also with a NULL buffer). *)
Theorem multicore_never_frees ls w :
  run (app_start 0 initial) ls = Some w →
  count is_free (trace w) = 0%nat ∧ count is_release (trace w) = 0%nat ∧
  length (live_blocks (trace w)) = count is_dma_alloc (trace w) ∧
  (count is_read (trace w) + 4 * length (inbox w) = 16)%nat.
Proof.
  intros Hrun.
  destruct (minv_run _ _ _ minv_app_start Hrun)
    as (_ & _ & _ & _ & Hrd & _ & Hfr & Hrl & Hlv).
  done.
Qed.

(** Thread 0 runs with an allocator that fails and a layer that refuses. *)
Lemma multicore_never_frees_witness :
  ∃ w, run (app_start 0 initial)
         [Deliver 0 (Some 0%nat) 4096
            (λ _, {| zmalloc_ok := false; read_rc := -22 |})] = Some w ∧
       count is_read (trace w) = 4%nat ∧ count is_free (trace w) = 0%nat.
Proof.
  eexists. split; [vm_compute; reflexivity|].
  match goal with
  | |- count is_read (trace ?w) = _ ∧ _ =>
      destruct (multicore_never_frees
                  [Deliver 0 (Some 0%nat) 4096
                     (λ _, {| zmalloc_ok := false; read_rc := -22 |})] w)
        as (H1 & _ & _ & H4); [vm_compute; reflexivity|]
  end.
  split; [|exact H1]. vm_compute in H4 |- *. reflexivity.
Defined.



End multicore_runs.

(** ** spdk_nvme_app.c: how [main] ends *)

Section spdk_nvme_app.
Import SpdkNvmeApp.

Lemma ncount_snoc p tr c :
  ncount p (tr ++ [c]) = (ncount p tr + if p c then 1 else 0)%nat.
Proof.
  unfold ncount. rewrite filter_app, length_app. f_equal.
  destruct (p c) eqn:E.
  - by rewrite filter_cons_True.
  - rewrite filter_cons_False; [done|]. by rewrite E.
Qed.

(** The loop over the cores makes one attempt per core and goes on after a
    failure. *)
Lemma thread_loop_effect (ok : nat → bool) (cs : list nat) w :
  let w' := foldl (λ w core,
                     let w := emit (ThreadCreate core (ok core)) w in
                     if ok core
                     then emit (Lib (EStdout "Created SPDK thread bound to core %d"
                                       [Z.of_nat core])) w
                     else emit (Lib (EStderr "Failed to create thread on core %d")) w)
                  w cs in
  g_ctrlr w' = g_ctrlr w ∧
  ncount is_thread_create (trace w') =
    (ncount is_thread_create (trace w) + length cs)%nat ∧
  ncount is_env_fini (trace w') = ncount is_env_fini (trace w) ∧
  ncount is_alloc_qpair (trace w') = ncount is_alloc_qpair (trace w) ∧
  ncount (is_lib is_stderr) (trace w') =
    (ncount (is_lib is_stderr) (trace w)
     + length (filter (λ c, ok c = false) cs))%nat.
Proof.
  match goal with |- context [foldl ?f w cs] => set (F := f) end.
  cbv zeta. revert w. induction cs as [|c cs IH]; intros w.
  { simpl. repeat split; lia. }
  cbn [foldl]. destruct (IH (F w c)) as (H1 & H2 & H3 & H4 & H5).
  rewrite H1, H2, H3, H4, H5. clear IH H1 H2 H3 H4 H5.
  rewrite filter_cons. subst F. cbv beta zeta.
  destruct (ok c) eqn:E; simpl; rewrite !ncount_snoc; simpl;
    repeat split; lia.
Qed.

(** [main] returns 0 exactly when the environment initialises and the
    probe succeeds, and -1 otherwise.  A thread that cannot be created, a
    probe that attaches no controller and a queue pair that cannot be
    allocated are not fatal.  Every core of the mask gets its attempt, at
    most one queue pair is ever asked for, and [spdk_env_fini] is called
    exactly on the path that returns 0. *)
Theorem main_exit_status_app e :
  ((main e).1 = 0 ↔ ¬ env_init_rc e < 0 ∧ probe_rc e = 0) ∧
  ((main e).1 = 0 ∨ (main e).1 = -1) ∧
  ncount is_env_fini (trace (main e).2) =
    (if decide ((main e).1 = 0) then 1%nat else 0%nat) ∧
  ncount is_thread_create (trace (main e).2) =
    (if decide (env_init_rc e < 0) then 0%nat else length (cores e)) ∧
  ncount is_alloc_qpair (trace (main e).2) =
    (if decide ((main e).1 = 0 ∧ is_Some (attached e)) then 1%nat else 0%nat).
Proof.
  unfold main.
  destruct (Z.ltb_spec (env_init_rc e) 0) as [Hi|Hi].
  { cbn [fst snd emit trace].
    repeat case_decide; try lia;
      try (match goal with H : _ ∧ _ |- _ => destruct H as [? _]; done end).
    repeat split; try done; auto. intros [? _]. lia. }
  match goal with
  | |- context [foldl ?f ?w0 (cores e)] =>
      pose proof (thread_loop_effect (thread_ok e) (cores e) w0) as H;
      cbv zeta in H; set (w1 := foldl f w0 (cores e)) in *
  end.
  destruct H as (H1 & H2 & H3 & H4 & _).
  cbn [trace] in H2, H3, H4.
  change (ncount is_thread_create [Lib (EEnvInit (env_init_rc e))]) with 0%nat in H2.
  change (ncount is_env_fini [Lib (EEnvInit (env_init_rc e))]) with 0%nat in H3.
  change (ncount is_alloc_qpair [Lib (EEnvInit (env_init_rc e))]) with 0%nat in H4.
  simpl in H1, H2. clearbody w1.
  pose proof (@is_Some_None nat) as HN.
  assert (∀ c : nat, is_Some (Some c)) as HS by eauto.
  destruct (attached e) as [ctrlr|] eqn:Ha;
    destruct (bool_decide (probe_rc e = 0)) eqn:Hp;
    [apply bool_decide_eq_true in Hp | apply bool_decide_eq_false in Hp
    |apply bool_decide_eq_true in Hp | apply bool_decide_eq_false in Hp];
    cbn [negb fst snd attach_cb emit g_ctrlr trace]; rewrite ?H1;
    try (destruct (qpair_res e));
    cbn [negb fst snd attach_cb emit g_ctrlr trace];
    rewrite !ncount_snoc, H2, H3, H4;
    cbn [is_env_fini is_thread_create is_alloc_qpair is_lib];
    repeat case_decide; intuition (auto; try lia; try (exfalso; eauto)).
Qed.

End spdk_nvme_app.

(** ** nvme_multicore_multi_qpair.c: queue pairs and their reads *)

Section nvme_qpairs.
Import NvmeMulticoreQpair.

Lemma round_effect ss ok rc w i :
  qpairs (round ss ok rc w i) = qpairs w ∧
  brk (round ss ok rc w i) = ((if ok i then 1 else 0) + brk w)%nat ∧
  trace (round ss ok rc w i) =
    trace w ++ round_calls ss rc w (if ok i then Some (brk w) else None) i.
Proof.
  unfold round, round_calls, IO_PER_QP. cbn [seq map foldl].
  destruct (ok i); cbn [emit set_brk qpairs brk trace];
    rewrite <- ?app_assoc; done.
Qed.

Lemma successes_before (ok : nat → bool) (n : nat) :
  length (filter (λ i, ok i = true) (seq 0 (S n))) =
    ((if ok n then 1 else 0) + length (filter (λ i, ok i = true) (seq 0 n)))%nat.
Proof.
  rewrite seq_S, filter_app, length_app. cbn [Nat.add].
  rewrite filter_cons, filter_nil.
  destruct (ok n); case_decide; simpl; (done || lia).
Qed.

(** The calls of [thread_work], round by round. *)
Lemma thread_work_calls ss ok rc w :
  qpairs (thread_work ss ok rc w) = qpairs w ∧
  trace (thread_work ss ok rc w) =
    trace w ++
    mjoin (map (λ i, round_calls ss rc w (buf_of ok w i) i) (seq 0 NUM_QPAIR)).
Proof.
  change (thread_work ss ok rc w)
    with (round ss ok rc
            (round ss ok rc (round ss ok rc (round ss ok rc w 0) 1) 2) 3).
  destruct (round_effect ss ok rc w 0) as (Q0 & B0 & T0).
  set (w1 := round ss ok rc w 0) in *.
  destruct (round_effect ss ok rc w1 1) as (Q1 & B1 & T1).
  set (w2 := round ss ok rc w1 1) in *.
  destruct (round_effect ss ok rc w2 2) as (Q2 & B2 & T2).
  set (w3 := round ss ok rc w2 2) in *.
  destruct (round_effect ss ok rc w3 3) as (Q3 & _ & T3).
  clearbody w1 w2 w3.
  split; [congruence|].
  rewrite T3, T2, T1, T0. unfold round_calls at 1 2 3 4.
  rewrite Q2, Q1, Q0, B2, B1, B0. unfold buf_of, NUM_QPAIR.
  change (seq 0 4) with [0; 1; 2; 3]%nat. cbn [map mjoin list_join].
  rewrite !successes_before. change (filter _ (seq 0 0)) with (@nil nat).
  cbn [length]. rewrite !Nat.add_0_r, <- !app_assoc, !Nat.add_assoc.
  reflexivity.
Qed.

Lemma ncount_app p tr1 tr2 :
  ncount p (tr1 ++ tr2) = (ncount p tr1 + ncount p tr2)%nat.
Proof. unfold ncount. by rewrite filter_app, length_app. Qed.

(** [init_ctrlr] when the first [k] allocations succeed and the next one,
    if there is one, fails: the loop is left after that call, the entries
    up to the failing one are written and the others are not touched. *)
Lemma init_ctrlr_effect alloc w k :
  length (qpairs w) = NUM_QPAIR →
  (k ≤ NUM_QPAIR)%nat →
  (∀ i, (i < k)%nat → is_Some (alloc i)) →
  ((k < NUM_QPAIR)%nat → alloc k = None) →
  (init_ctrlr alloc w).1 = (if decide (k = NUM_QPAIR) then 0 else -1) ∧
  brk (init_ctrlr alloc w).2 = brk w ∧
  ncount is_alloc_qpair (trace (init_ctrlr alloc w).2) =
    (ncount is_alloc_qpair (trace w) + S k `min` NUM_QPAIR)%nat ∧
  ncount (is_lib is_read) (trace (init_ctrlr alloc w).2) =
    ncount (is_lib is_read) (trace w) ∧
  qpairs (init_ctrlr alloc w).2 =
    map (λ i, {| qpair := alloc i; id := Z.of_nat i |})
        (seq 0 (S k `min` NUM_QPAIR))
    ++ drop (S k) (qpairs w).
Proof.
  unfold NUM_QPAIR. intros Hl Hk Hs Hn.
  destruct w as [qs b tr]. cbn [qpairs brk trace] in *.
  destruct qs as [|q0 [|q1 [|q2 [|q3 [|]]]]]; try done. clear Hl.
  assert (∀ i, (i < k)%nat → ∃ a, alloc i = Some a) as Hs' by exact Hs.
  destruct k as [|[|[|[|[|]]]]]; [| | | | |lia];
    unfold init_ctrlr, NUM_QPAIR; cbn [seq init_loop];
    try (destruct (Hs' 0%nat ltac:(lia)) as [a0 E0]);
    try (destruct (Hs' 1%nat ltac:(lia)) as [a1 E1]);
    try (destruct (Hs' 2%nat ltac:(lia)) as [a2 E2]);
    try (destruct (Hs' 3%nat ltac:(lia)) as [a3 E3]);
    try (pose proof (Hn ltac:(lia)) as En);
    rewrite ?E0, ?E1, ?E2, ?E3, ?En;
    cbn [fst snd emit set_qpairs qpairs brk trace alter list_alter with_id
         with_qpair qpair id Nat.min seq map drop app];
    rewrite ?ncount_snoc, ?E0, ?E1, ?E2, ?E3, ?En;
    cbn [is_alloc_qpair is_lib]; case_decide; try lia;
    repeat split; (lia || reflexivity).
Qed.

Lemma round_calls_counts ss rc w b i :
  ncount (is_lib is_read) (round_calls ss rc w b i) = IO_PER_QP ∧
  ncount (is_lib is_free) (round_calls ss rc w b i) = 0%nat ∧
  ncount is_alloc_qpair (round_calls ss rc w b i) = 0%nat ∧
  ncount (is_lib is_dma_alloc) (round_calls ss rc w b i) =
    match b with Some _ => 1%nat | None => 0%nat end.
Proof. destruct b; repeat split; reflexivity. Qed.

(** What [thread_work] adds to the trace, by kind of call. *)
Lemma thread_work_counts ss ok rc w :
  let w' := thread_work ss ok rc w in
  ncount (is_lib is_read) (trace w') =
    (ncount (is_lib is_read) (trace w) + NUM_QPAIR * IO_PER_QP)%nat ∧
  ncount (is_lib is_free) (trace w') = ncount (is_lib is_free) (trace w) ∧
  ncount is_alloc_qpair (trace w') = ncount is_alloc_qpair (trace w) ∧
  ncount (is_lib is_dma_alloc) (trace w') =
    (ncount (is_lib is_dma_alloc) (trace w)
     + length (filter (λ i, ok i = true) (seq 0 NUM_QPAIR)))%nat.
Proof.
  cbv zeta. destruct (thread_work_calls ss ok rc w) as [_ ->].
  assert (length (filter (λ i, ok i = true) (seq 0 NUM_QPAIR)) =
          ((if ok 3%nat then 1 else 0) + ((if ok 2%nat then 1 else 0)
           + ((if ok 1%nat then 1 else 0) + ((if ok 0%nat then 1 else 0) + 0))))%nat)
    as ->.
  { unfold NUM_QPAIR. by rewrite !successes_before. }
  unfold NUM_QPAIR. change (seq 0 4) with [0; 1; 2; 3]%nat.
  cbn [map mjoin list_join]. rewrite !ncount_app.
  destruct (round_calls_counts ss rc w (buf_of ok w 0) 0) as (-> & -> & -> & ->).
  destruct (round_calls_counts ss rc w (buf_of ok w 1) 1) as (-> & -> & -> & ->).
  destruct (round_calls_counts ss rc w (buf_of ok w 2) 2) as (-> & -> & -> & ->).
  destruct (round_calls_counts ss rc w (buf_of ok w 3) 3) as (-> & -> & -> & ->).
  change (ncount _ []) with 0%nat. unfold IO_PER_QP, buf_of.
  repeat split; try lia.
  destruct (ok 0%nat), (ok 1%nat), (ok 2%nat), (ok 3%nat); lia.
Qed.

(** Every read of [thread_work] is among its calls, on the queue pair
    stored at the index of its round and with the buffer of its round. *)
Lemma round_calls_reads ss ok rc w i j :
  (i < NUM_QPAIR)%nat → (j < IO_PER_QP)%nat →
  Lib (ENvmeRead (qpairs w !! i ≫= qpair) (buf_of ok w i) (Z.of_nat j) 1 (rc i j))
    ∈ mjoin (map (λ i, round_calls ss rc w (buf_of ok w i) i) (seq 0 NUM_QPAIR)).
Proof.
  intros Hi Hj. apply list_elem_of_join.
  exists (round_calls ss rc w (buf_of ok w i) i). split.
  - unfold round_calls. apply elem_of_cons; right.
    apply list_elem_of_In, in_map_iff. exists j. split; [done|].
    apply in_seq. lia.
  - apply list_elem_of_In, in_map_iff. exists i. split; [done|].
    apply in_seq. lia.
Qed.

Lemma thread_work_reads ss ok rc w i j :
  (i < NUM_QPAIR)%nat → (j < IO_PER_QP)%nat →
  Lib (ENvmeRead (qpairs w !! i ≫= qpair) (buf_of ok w i) (Z.of_nat j) 1 (rc i j))
    ∈ trace (thread_work ss ok rc w).
Proof.
  intros Hi Hj. destruct (thread_work_calls ss ok rc w) as [_ ->].
  apply elem_of_app; right. by apply round_calls_reads.
Qed.

(** [init_ctrlr] returns 0 exactly when all [NUM_QPAIR] allocations
    succeed, and then every entry holds its queue pair and its index.
    Otherwise it returns -1 right after the first allocation that fails:
    no later allocation is attempted, the failing entry holds NULL and the
    entries after it are left as they were. *)
Theorem init_ctrlr_result alloc w :
  length (qpairs w) = NUM_QPAIR →
  let r := init_ctrlr alloc w in
  (r.1 = 0 ∧
   Forall (λ i, is_Some (alloc i)) (seq 0 NUM_QPAIR) ∧
   ncount is_alloc_qpair (trace r.2) =
     (ncount is_alloc_qpair (trace w) + NUM_QPAIR)%nat ∧
   qpairs r.2 =
     map (λ i, {| qpair := alloc i; id := Z.of_nat i |}) (seq 0 NUM_QPAIR))
  ∨
  (r.1 = -1 ∧
   ∃ k, (k < NUM_QPAIR)%nat ∧ alloc k = None ∧
        Forall (λ i, is_Some (alloc i)) (seq 0 k) ∧
        ncount is_alloc_qpair (trace r.2) =
          (ncount is_alloc_qpair (trace w) + S k)%nat ∧
        qpairs r.2 =
          map (λ i, {| qpair := alloc i; id := Z.of_nat i |}) (seq 0 (S k))
          ++ drop (S k) (qpairs w)).
Proof.
  intros Hl. cbv zeta.
  assert (∀ k, (k ≤ NUM_QPAIR)%nat →
               Forall (λ i, is_Some (alloc i)) (seq 0 k) →
               ∀ i, (i < k)%nat → is_Some (alloc i)) as Hall.
  { intros k _ HF i Hi. rewrite Forall_forall in HF. apply HF.
    apply elem_of_seq. lia. }
  assert (∃ k, (k ≤ NUM_QPAIR)%nat ∧
               Forall (λ i, is_Some (alloc i)) (seq 0 k) ∧
               ((k < NUM_QPAIR)%nat → alloc k = None)) as (k & Hk & HF & Hn).
  { unfold NUM_QPAIR.
    destruct (alloc 0%nat) as [a0|] eqn:E0;
      [|exists 0%nat; repeat split; [lia|constructor|done]].
    destruct (alloc 1%nat) as [a1|] eqn:E1;
      [|exists 1%nat; repeat split; [lia|repeat constructor; rewrite ?E0; eauto|done]].
    destruct (alloc 2%nat) as [a2|] eqn:E2;
      [|exists 2%nat; repeat split;
        [lia|repeat constructor; rewrite ?E0, ?E1; eauto|done]].
    destruct (alloc 3%nat) as [a3|] eqn:E3;
      [|exists 3%nat; repeat split;
        [lia|repeat constructor; rewrite ?E0, ?E1, ?E2; eauto|done]].
    exists 4%nat. repeat split; [lia| |lia].
    repeat constructor; rewrite ?E0, ?E1, ?E2, ?E3; eauto. }
  destruct (init_ctrlr_effect alloc w k Hl Hk (Hall k Hk HF) Hn)
    as (Hr & _ & Hc & _ & Hq).
  destruct (decide (k = NUM_QPAIR)) as [->|Hne].
  - left. rewrite Nat.min_r in Hc, Hq by (unfold NUM_QPAIR; lia).
    rewrite drop_ge, app_nil_r in Hq by lia. done.
  - right. split; [done|]. exists k.
    rewrite Nat.min_l in Hc, Hq by (unfold NUM_QPAIR in *; lia).
    repeat split; try done; [lia | apply Hn; lia].
Qed.

Lemma init_ctrlr_result_witness :
  let alloc := λ i : nat, if (i <? 2)%nat then Some (10 + i)%nat else None in
  let w := {| qpairs := replicate 4 {| qpair := Some 77%nat; id := 9 |};
              brk := 0; trace := [] |} in
  length (qpairs w) = NUM_QPAIR ∧
  (init_ctrlr alloc w).1 = -1 ∧
  qpairs (init_ctrlr alloc w).2 =
    [ {| qpair := Some 10%nat; id := 0 |}; {| qpair := Some 11%nat; id := 1 |};
      {| qpair := None; id := 2 |}; {| qpair := Some 77%nat; id := 9 |} ].
Proof.
  cbv zeta. split; [reflexivity|].
  match goal with
  | |- context [init_ctrlr ?a ?w] =>
      destruct (init_ctrlr_result a w eq_refl) as [(H & _)|(_ & k & _)]
  end.
  - vm_compute in H. discriminate H.
  - split; reflexivity.
Defined.

(** [thread_work] looks at no result: whatever the allocations and the
    submissions answer, it allocates [NUM_QPAIR] times, submits
    [NUM_QPAIR * IO_PER_QP] reads and frees nothing; every read of a round
    uses the queue pair stored at the round's index and the round's one
    buffer, which is NULL when the allocation of the round failed. *)
Theorem thread_work_unchecked ss ok rc w :
  ∃ tr,
    trace (thread_work ss ok rc w) = trace w ++ tr ∧
    ncount (is_lib is_read) tr = (NUM_QPAIR * IO_PER_QP)%nat ∧
    ncount (is_lib is_free) tr = 0%nat ∧
    ncount (is_lib is_dma_alloc) tr =
      length (filter (λ i, ok i = true) (seq 0 NUM_QPAIR)) ∧
    Forall (λ i,
              Forall (λ j,
                        Lib (ENvmeRead (qpairs w !! i ≫= qpair) (buf_of ok w i)
                               (Z.of_nat j) 1 (rc i j)) ∈ tr)
                     (seq 0 IO_PER_QP))
           (seq 0 NUM_QPAIR).
Proof.
  destruct (thread_work_calls ss ok rc w) as [_ Ht].
  pose proof (thread_work_counts ss ok rc w) as Hc. cbv zeta in Hc.
  rewrite Ht in Hc. eexists. split; [exact Ht|].
  rewrite !ncount_app in Hc. destruct Hc as (H1 & H2 & _ & H4).
  repeat split; try lia.
  apply Forall_forall. intros i Hi. apply Forall_forall. intros j Hj.
  apply elem_of_seq in Hi, Hj. apply round_calls_reads; lia.
Qed.

(** [app_start] drops the result of [init_ctrlr].  When the allocation of
    queue pair [k] fails, [thread_work] still runs on the [thread_ctx]: all
    [NUM_QPAIR * IO_PER_QP] reads are submitted, those of round [k] on a
    NULL queue pair and those of the later rounds on whatever the
    [thread_ctx] held before [init_ctrlr]. *)
Theorem app_start_core_ignores_failure alloc ss ok rc w k :
  length (qpairs w) = NUM_QPAIR →
  (k < NUM_QPAIR)%nat →
  (∀ i, (i < k)%nat → is_Some (alloc i)) →
  alloc k = None →
  let w1 := (init_ctrlr alloc w).2 in
  let w' := app_start_core alloc ss ok rc w in
  (init_ctrlr alloc w).1 = -1 ∧
  ncount is_alloc_qpair (trace w') =
    (ncount is_alloc_qpair (trace w) + S k)%nat ∧
  ncount (is_lib is_read) (trace w') =
    (ncount (is_lib is_read) (trace w) + NUM_QPAIR * IO_PER_QP)%nat ∧
  Forall (λ j, Lib (ENvmeRead None (buf_of ok w1 k) (Z.of_nat j) 1 (rc k j))
                 ∈ trace w')
         (seq 0 IO_PER_QP) ∧
  Forall (λ i,
            Forall (λ j,
                      Lib (ENvmeRead (qpairs w !! i ≫= qpair) (buf_of ok w1 i)
                             (Z.of_nat j) 1 (rc i j)) ∈ trace w')
                   (seq 0 IO_PER_QP))
         (seq (S k) (NUM_QPAIR - S k)).
Proof.
  intros Hl Hk Hs Hn. cbv zeta. unfold app_start_core.
  destruct (init_ctrlr_effect alloc w k Hl ltac:(lia) Hs (λ _, Hn))
    as (Hr & _ & Hc & Hrd & Hq).
  rewrite decide_False in Hr by lia.
  rewrite Nat.min_l in Hc, Hq by lia.
  set (w1 := (init_ctrlr alloc w).2) in *.
  pose proof (thread_work_counts ss ok rc w1) as (C1 & _ & C3 & _).
  pose proof (thread_work_reads ss ok rc w1) as Hreads.
  assert (qpairs w1 !! k ≫= qpair = None) as Hk1.
  { rewrite Hq. unfold NUM_QPAIR in *.
    destruct k as [|[|[|[|]]]]; try lia; cbn; by rewrite Hn. }
  assert (∀ i, (k < i)%nat → qpairs w1 !! i = qpairs w !! i) as Hk2.
  { intros i Hi. rewrite Hq. unfold NUM_QPAIR in *.
    destruct (qpairs w) as [|q0 [|q1 [|q2 [|q3 [|]]]]]; try done.
    destruct k as [|[|[|[|]]]]; try lia;
      destruct i as [|[|[|[|]]]]; try lia; reflexivity. }
  split; [done|]. split; [lia|]. split; [lia|]. split.
  - apply Forall_forall. intros j Hj. apply elem_of_seq in Hj.
    rewrite <- Hk1. apply Hreads; lia.
  - apply Forall_forall. intros i Hi. apply elem_of_seq in Hi.
    apply Forall_forall. intros j Hj. apply elem_of_seq in Hj.
    rewrite <- (Hk2 i ltac:(lia)). apply Hreads; lia.
Qed.

Lemma app_start_core_ignores_failure_witness :
  let alloc := λ i : nat, if (i <? 2)%nat then Some (10 + i)%nat else None in
  let w := {| qpairs := replicate 4 {| qpair := Some 77%nat; id := 9 |};
              brk := 0; trace := [] |} in
  ncount (is_lib is_read)
    (trace (app_start_core alloc 512 (λ _, true) (λ _ _, 0) w)) = 16%nat ∧
  Lib (ENvmeRead None (Some 2%nat) 0 1 0)
    ∈ trace (app_start_core alloc 512 (λ _, true) (λ _ _, 0) w).
Proof.
  cbv zeta.
  match goal with
  | |- context [app_start_core ?a ?ss ?ok ?rc ?w] =>
      destruct (app_start_core_ignores_failure a ss ok rc w 2 eq_refl
                  ltac:(unfold NUM_QPAIR; lia)
                  ltac:(intros [|[|]] ?; [eauto|eauto|lia]) eq_refl)
        as (_ & _ & H & HF & _)
  end.
  split; [exact H|].
  apply Forall_inv in HF. exact HF.
Defined.

End nvme_qpairs.

(** ** spdk_nvme_multi_io_full.c: the buffer of a refused read *)

Section nvme_full_buffer.
Import NvmeMultiIoFull.

(** [submit_io] never frees its buffer.  When the buffer is allocated and
    the driver refuses the read, the counters and the commands held by the
    queue pair are as before and one line goes to stderr, but the buffer
    stays allocated: the call leaves one more live block. *)
Theorem full_refused_read_leaks_buffer lib w :
  zmalloc_ok lib = true →
  cmd_rc lib (outstanding w) ≠ 0 →
  let w' := submit_io lib w in
  ctx w' = ctx w ∧
  outstanding w' = outstanding w ∧
  count is_free (trace w') = count is_free (trace w) ∧
  count is_stderr (trace w') = S (count is_stderr (trace w)) ∧
  live_blocks (trace w') = brk w :: live_blocks (trace w).
Proof.
  intros Hz Hrc. unfold submit_io, QP_PER_REACTOR. rewrite Hz.
  cbn [seq foldl emit set_brk outstanding ctx trace brk].
  rewrite decide_False by done.
  cbn [emit set_brk outstanding ctx trace brk].
  repeat split.
  - rewrite !count_snoc. simpl. lia.
  - rewrite !count_snoc. simpl. lia.
  - rewrite <- !app_assoc, live_blocks_app. reflexivity.
Qed.

Lemma full_refused_read_leaks_buffer_witness :
  let lib := {| zmalloc_ok := true; cmd_rc := λ _, -12 |} in
  live_blocks (trace (submit_io lib (start 1 0 0 [5%nat]))) = [0%nat] ∧
  io_submitted (ctx (submit_io lib (start 1 0 0 [5%nat]))) = 0.
Proof.
  cbv zeta.
  match goal with
  | |- context [submit_io ?l ?w] =>
      destruct (full_refused_read_leaks_buffer l w eq_refl ltac:(simpl; lia))
        as (Hc & _ & _ & _ & Hb)
  end.
  split; [exact Hb | by rewrite Hc].
Defined.

End nvme_full_buffer.
